(** * Call resolution of [codebase_rag.parsers.call_processor]

    A shallow embedding of [CallProcessor] (file
    [codebase_rag/parsers/call_processor.py]): the resolver
    [_resolve_function_call] with its phases, the inheritance walk, the
    import distance, the construction of caller qualified names and the
    emission of CALLS relationships.

    Python [str] values are [string]s.  The separators the code looks for
    (".", "(", ")", ":", "*") are ASCII, and a UTF-8 encoded text contains an
    ASCII byte only where the text has that character, so splitting and
    searching on bytes agrees with splitting and searching on code points. *)

From Stdlib Require Import Ascii String ZArith Lia.
From stdpp Require Import base option list gmap strings sets.

#[local] Set Warnings "-clear-no-such-hyp".

Local Open Scope list_scope.
Local Open Scope stdpp_scope.

(** ** Python string operations *)

Module PyStr.

(** [s.startswith(p)] *)
Definition startswith (s p : string) : bool := String.prefix p s.

(** [needle in s] for strings. *)
Fixpoint contains (needle s : string) : bool :=
  String.prefix needle s ||
  match s with
  | EmptyString => false
  | String _ s' => contains needle s'
  end.

(** [s.endswith(suf)] *)
Fixpoint endswith (s suf : string) : bool :=
  String.eqb s suf ||
  match s with
  | EmptyString => false
  | String _ s' => endswith s' suf
  end.

(** [s.split(sep)] for a separator of one character: never the empty list,
    [""] splits into [[""]]. *)
Fixpoint split (sep : ascii) (s : string) : list string :=
  match s with
  | EmptyString => [EmptyString]
  | String c s' =>
      if Ascii.eqb c sep then EmptyString :: split sep s'
      else match split sep s' with
           | h :: t => String c h :: t
           | [] => [String c EmptyString]
           end
  end.

(** [sep.join(l)] *)
Definition join (sep : string) (l : list string) : string := String.concat sep l.

(** [s.split(sep, 1)[1]] when [sep in s]: the text after the first [sep]. *)
Fixpoint after_first (sep : ascii) (s : string) : option string :=
  match s with
  | EmptyString => None
  | String c s' => if Ascii.eqb c sep then Some s' else after_first sep s'
  end.

(** Python truthiness of a string: [if s:]. *)
Definition truthy (s : string) : bool := negb (String.eqb s "").

End PyStr.

Definition dot : ascii := "."%char.

(** ** Data model *)

(** A Python [dict[str, str]] whose iteration order the code relies on
    ([import_map.items()], the registry's insertion order): an association
    list in insertion order, a key bound at most once. *)
Definition StrDict := list (string * string).

Fixpoint dict_get (d : StrDict) (k : string) : option string :=
  match d with
  | [] => None
  | (k', v) :: d' => if String.eqb k' k then Some v else dict_get d' k
  end.

(** The Function Registry, [self.function_registry].

    Modelled from the spec: the registry class is built by the structure
    scanner and is not part of the sources at hand; the call processor uses
    [qn in registry], [registry[qn]] and [registry.find_ending_with(tail)].
    Following the data model it is a mapping from qualified name to kind in
    insertion order, and [find_ending_with tail] lists, in insertion order,
    the registered names ending in ["." + tail]. *)
Module FunctionRegistry.

Definition t := StrDict.

(** [registry[qn]], [None] standing for [KeyError]; [qn in registry] is
    [is_Some (get reg qn)]. *)
Definition get (reg : t) (qn : string) : option string := dict_get reg qn.

Definition find_ending_with (reg : t) (tail : string) : list string :=
  List.filter (fun qn => PyStr.endswith qn ("." +:+ tail)) (List.map fst reg).

End FunctionRegistry.

(** A resolved callee: [(kind, qualified_name)]. *)
Definition Callee := (string * string)%type.

(** [list.sort(key=...)] on the candidates: a stable sort, ascending in the
    key.  [insert_by_key] puts [x] before the first element whose key is not
    smaller, so elements with equal keys keep their order. *)
Fixpoint insert_by_key (key : string → Z) (x : string) (l : list string) : list string :=
  match l with
  | [] => [x]
  | y :: l' => if (key x <=? key y)%Z then x :: y :: l' else y :: insert_by_key key x l'
  end.

Definition sort_by_key (key : string → Z) (l : list string) : list string :=
  foldr (insert_by_key key) [] l.

(** The loop of [_calculate_import_distance] counting equal leading parts. *)
Fixpoint common_prefix_len (a b : list string) : nat :=
  match a, b with
  | x :: a', y :: b' => if String.eqb x y then S (common_prefix_len a' b') else 0
  | _, _ => 0
  end.

(** [_calculate_import_distance]: Python integers are unbounded and the
    result can be negative, hence [Z]. *)
Definition _calculate_import_distance (candidate_qn caller_module_qn : string) : Z :=
  let caller_parts := PyStr.split dot caller_module_qn in
  let candidate_parts := PyStr.split dot candidate_qn in
  let common_prefix := common_prefix_len caller_parts candidate_parts in
  let base_distance :=
    (Z.of_nat (Nat.max (length caller_parts) (length candidate_parts))
     - Z.of_nat common_prefix)%Z in
  if PyStr.startswith candidate_qn
       (PyStr.join "." (removelast caller_parts) +:+ ".")
  then (base_distance - 1)%Z
  else base_distance.

(** [_is_method_chain] *)
Definition has_parens (s : string) : bool :=
  PyStr.contains "(" s && PyStr.contains ")" s.

Definition _is_method_chain (call_name : string) : bool :=
  if has_parens call_name then
    let parts := PyStr.split dot call_name in
    let method_calls := length (List.filter has_parens parts) in
    Nat.leb 1 method_calls && Nat.leb 2 (length parts)
  else false.

(** [re.search(r"\.([^.()]+)$", call_name)]: the pattern needs a dot followed,
    up to the end of the text, by one or more characters other than ".", "("
    and ")".  Only the last dot can match, and it does when the piece after
    it is not empty and has no parenthesis.  The result is
    [(call_name[:match.start()], match.group(1))]. *)
Definition final_method_match (call_name : string) : option (string * string) :=
  let parts := PyStr.split dot call_name in
  match reverse parts with
  | final :: _ :: _ =>
      if PyStr.truthy final
         && negb (PyStr.contains "(" final) && negb (PyStr.contains ")" final)
      then Some (PyStr.join "." (removelast parts), final)
      else None
  | _ => None
  end.

(** Outcome of the loop of the inheritance walk run with a bound on the
    number of iterations. *)
Inductive walk_outcome : Type :=
| OutOfFuel
| Exhausted
| Found (kind qn : string).

(** The inner [for grandparent_qn in ...] loop: every parent not yet visited
    is marked and appended to the queue. *)
Fixpoint enqueue_unvisited (gps queue : list string) (visited : gset string)
  : list string * gset string :=
  match gps with
  | [] => (queue, visited)
  | g :: gps' =>
      if decide (g ∈ visited) then enqueue_unvisited gps' queue visited
      else enqueue_unvisited gps' (queue ++ [g]) ({[g]} ∪ visited)
  end.

(** Every class named as a parent somewhere in the inheritance table. *)
Definition all_parents (class_inheritance : gmap string (list string)) : gset string :=
  ⋃ (List.map (fun kv => list_to_set (snd kv)) (map_to_list class_inheritance)).

(** ** The resolver *)

Section CallProcessor.

(** The tables a [CallProcessor] holds: [self.function_registry],
    [self.import_processor.import_mapping] (module QN to import map) and
    [self.class_inheritance] (class QN to its parents in declared order). *)
Variable function_registry : FunctionRegistry.t.
Variable import_mapping : gmap string StrDict.
Variable class_inheritance : gmap string (list string).

(** [utils.resolve_class_name] and the type inference engine's
    [_infer_expression_return_type] are defined outside the sources at hand;
    the resolver is parameterised by them. *)
Variable resolve_class_name :
  string → string → gmap string StrDict → FunctionRegistry.t → option string.
Variable _infer_expression_return_type :
  string → string → option (gmap string string) → option string.

(** [if qn in self.function_registry: return self.function_registry[qn], qn] *)
Definition registry_hit (qn : string) : option Callee :=
  match FunctionRegistry.get function_registry qn with
  | Some kind => Some (kind, qn)
  | None => None
  end.

Definition _resolve_class_name (class_name module_qn : string) : option string :=
  resolve_class_name class_name module_qn import_mapping function_registry.

(** The [while queue:] loop of [_resolve_inherited_method], at most [fuel]
    iterations. *)
Fixpoint inheritance_walk (fuel : nat) (method_name : string)
    (queue : list string) (visited : gset string) : walk_outcome :=
  match fuel with
  | O => OutOfFuel
  | S fuel' =>
      match queue with
      | [] => Exhausted
      | parent_class_qn :: queue' =>
          let parent_method_qn := parent_class_qn +:+ "." +:+ method_name in
          match FunctionRegistry.get function_registry parent_method_qn with
          | Some kind => Found kind parent_method_qn
          | None =>
              let '(queue'', visited') :=
                match class_inheritance !! parent_class_qn with
                | Some gps => enqueue_unvisited gps queue' visited
                | None => (queue', visited)
                end in
              inheritance_walk fuel' method_name queue'' visited'
          end
      end
  end.

(** Iterations granted to the walk from a given queue: every iteration
    removes one class from the queue, and a class enters the queue after the
    start only once, as an unvisited parent (see [walk_terminates]). *)
Definition walk_fuel (queue : list string) : nat :=
  S (length queue + size (all_parents class_inheritance)).

(** [_resolve_inherited_method] *)
Definition _resolve_inherited_method (class_qn method_name : string) : option Callee :=
  match class_inheritance !! class_qn with
  | None => None
  | Some parents =>
      let queue := parents in
      let visited : gset string := list_to_set queue in
      match inheritance_walk (walk_fuel queue) method_name queue visited with
      | Found kind qn => Some (kind, qn)
      | Exhausted | OutOfFuel => None
      end
  end.

(** [_resolve_super_call] *)
Definition _resolve_super_call (call_name module_qn : string)
    (class_context : option string) : option Callee :=
  match PyStr.after_first dot call_name with
  | None => None
  | Some method_name =>
      match class_context with
      | None => None
      | Some current_class_qn =>
          if negb (PyStr.truthy current_class_qn) then None
          else
            match class_inheritance !! current_class_qn with
            | None => None
            | Some [] => None
            | Some (_ :: _) => _resolve_inherited_method current_class_qn method_name
            end
      end
  end.

(** [_resolve_chained_call] *)
Definition _resolve_chained_call (call_name module_qn : string)
    (local_var_types : option (gmap string string)) : option Callee :=
  match final_method_match call_name with
  | None => None
  | Some (object_expr, final_method) =>
      match _infer_expression_return_type object_expr module_qn local_var_types with
      | None => None
      | Some object_type =>
          if negb (PyStr.truthy object_type) then None
          else
            let full_object_type :=
              if negb (PyStr.contains "." object_type) then
                match _resolve_class_name object_type module_qn with
                | Some resolved_class =>
                    if PyStr.truthy resolved_class then resolved_class else object_type
                | None => object_type
                end
              else object_type in
            let method_qn := full_object_type +:+ "." +:+ final_method in
            match registry_hit method_qn with
            | Some hit => Some hit
            | None => _resolve_inherited_method full_object_type final_method
            end
      end
  end.

(** [if local_var_types and key in local_var_types: local_var_types[key]] *)
Definition lvt_get (local_var_types : option (gmap string string)) (key : string)
  : option string :=
  match local_var_types with
  | Some m => m !! key
  | None => None
  end.

(** The resolution of a receiver whose inferred type is [var_type]: the code
    has this block twice, for [self.attr.method] and for [Name.method], with
    different log messages only. *)
Definition resolve_on_type (import_map : StrDict) (module_qn var_type method_name : string)
  : option Callee :=
  let class_qn :=
    match dict_get import_map var_type with
    | Some qn => qn
    | None => default "" (_resolve_class_name var_type module_qn)
    end in
  if PyStr.truthy class_qn then
    let method_qn := class_qn +:+ "." +:+ method_name in
    match registry_hit method_qn with
    | Some hit => Some hit
    | None => _resolve_inherited_method class_qn method_name
    end
  else None.

(** 1a.1, direct import resolution. *)
Definition direct_import (import_map : StrDict) (call_name : string) : option Callee :=
  match dict_get import_map call_name with
  | Some imported_qn => registry_hit imported_qn
  | None => None
  end.

(** 1a.2, qualified calls: [self.attr.method] and [Class.method]. *)
Definition qualified_call (import_map : StrDict) (call_name module_qn : string)
    (local_var_types : option (gmap string string)) : option Callee :=
  if PyStr.contains "." call_name then
    let parts := PyStr.split dot call_name in
    if Nat.leb 3 (length parts) && bool_decide (head parts = Some "self") then
      let attribute_ref := PyStr.join "." (removelast parts) in
      let method_name := List.last parts "" in
      match lvt_get local_var_types attribute_ref with
      | Some var_type => resolve_on_type import_map module_qn var_type method_name
      | None => None
      end
    else
      let class_name := List.hd "" parts in
      let method_name := PyStr.join "." (List.tl parts) in
      let imported :=
        match dict_get import_map class_name with
        | Some class_qn => registry_hit (class_qn +:+ "." +:+ method_name)
        | None => None
        end in
      match imported with
      | Some hit => Some hit
      | None =>
          match lvt_get local_var_types class_name with
          | Some var_type => resolve_on_type import_map module_qn var_type method_name
          | None => None
          end
      end
  else None.

(** The names a wildcard import of [imported_qn] can give to [call_name]. *)
Definition potential_qns (imported_qn call_name : string) : list string :=
  if PyStr.contains "::" imported_qn then
    [imported_qn +:+ "::" +:+ call_name]
  else
    [imported_qn +:+ "." +:+ call_name; imported_qn +:+ "::" +:+ call_name].

(** The [for wildcard_qn in potential_qns] loop. *)
Fixpoint first_registered (qns : list string) : option Callee :=
  match qns with
  | [] => None
  | wildcard_qn :: qns' =>
      match registry_hit wildcard_qn with
      | Some hit => Some hit
      | None => first_registered qns'
      end
  end.

(** 1b, the loop over [import_map.items()]. *)
Fixpoint wildcard_imports (items : StrDict) (call_name : string) : option Callee :=
  match items with
  | [] => None
  | (local_name, imported_qn) :: items' =>
      let hit :=
        if PyStr.startswith local_name "*"
        then first_registered (potential_qns imported_qn call_name)
        else None in
      match hit with
      | Some h => Some h
      | None => wildcard_imports items' call_name
      end
  end.

(** Phase 1 as a whole; [None] when the code falls through to phase 2. *)
Definition import_phase (call_name module_qn : string)
    (local_var_types : option (gmap string string)) : option Callee :=
  match import_mapping !! module_qn with
  | None => None
  | Some import_map =>
      match direct_import import_map call_name with
      | Some hit => Some hit
      | None =>
          match qualified_call import_map call_name module_qn local_var_types with
          | Some hit => Some hit
          | None => wildcard_imports import_map call_name
          end
      end
  end.

(** 2a, a function of the same module. *)
Definition same_module (call_name module_qn : string) : option Callee :=
  registry_hit (module_qn +:+ "." +:+ call_name).

(** 2b, the suffix fallback.  [find_ending_with] returns registered names
    only ([find_ending_with_registered]), so the subscript
    [self.function_registry[best_candidate_qn]] cannot raise
    ([suffix_fallback_resolves]); its [KeyError] branch is written as
    [None]. *)
Definition suffix_fallback (call_name module_qn : string) : option Callee :=
  let possible_matches := FunctionRegistry.find_ending_with function_registry call_name in
  match possible_matches with
  | [] => None
  | _ :: _ =>
      match sort_by_key (fun qn => _calculate_import_distance qn module_qn)
                        possible_matches with
      | best_candidate_qn :: _ => registry_hit best_candidate_qn
      | [] => None
      end
  end.

(** [_resolve_function_call] *)
Definition _resolve_function_call (call_name module_qn : string)
    (local_var_types : option (gmap string string))
    (class_context : option string) : option Callee :=
  if PyStr.startswith call_name "super()" then
    _resolve_super_call call_name module_qn class_context
  else if PyStr.contains "." call_name && _is_method_chain call_name then
    _resolve_chained_call call_name module_qn local_var_types
  else
    match import_phase call_name module_qn local_var_types with
    | Some hit => Some hit
    | None =>
        match same_module call_name module_qn with
        | Some hit => Some hit
        | None => suffix_fallback call_name module_qn
        end
    end.

End CallProcessor.

(** ** Syntax trees and queries *)

(** A tree-sitter [Node]: its [type], its [text] ([None] when the node has no
    source text) and its children, each with the field name it is attached
    under, if any.  [node.parent] is rendered by the list of ancestors a
    traversal carries along, nearest first. *)
#[local] Unset Elimination Schemes.
Inductive Node : Type :=
| mkNode (type : string) (text : option string)
         (fields : list (option string * Node)).
#[local] Set Elimination Schemes.

Definition node_type (n : Node) : string := let 'mkNode t _ _ := n in t.
Definition node_text (n : Node) : option string := let 'mkNode _ t _ := n in t.
Definition node_fields (n : Node) : list (option string * Node) :=
  let 'mkNode _ _ fs := n in fs.
Definition node_children (n : Node) : list Node := List.map snd (node_fields n).

Fixpoint field_lookup (name : string) (fs : list (option string * Node)) : option Node :=
  match fs with
  | [] => None
  | (f, c) :: fs' =>
      if bool_decide (f = Some name) then Some c else field_lookup name fs'
  end.

(** [node.child_by_field_name(name)] *)
Definition child_by_field_name (n : Node) (name : string) : option Node :=
  field_lookup name (node_fields n).

(** A node with its ancestors, nearest first. *)
Definition Located := (Node * list Node)%type.

(** The subtree of a node in document order, the node itself first. *)
Fixpoint subtree (n : Node) : list Node :=
  let 'mkNode _ _ fs := n in
  n :: (fix each (fs : list (option string * Node)) : list Node :=
          match fs with
          | [] => []
          | (_, c) :: fs' => subtree c ++ each fs'
          end) fs.

Fixpoint subtree_located (ancestors : list Node) (n : Node) : list Located :=
  let 'mkNode _ _ fs := n in
  (n, ancestors) ::
  (fix each (fs : list (option string * Node)) : list Located :=
     match fs with
     | [] => []
     | (_, c) :: fs' => subtree_located (n :: ancestors) c ++ each fs'
     end) fs.

(** The language configuration record and the compiled queries.

    Modelled from the spec: the grammar and query layer is outside the
    sources at hand.  A language configuration declares which node types
    denote modules, classes and functions; a query yields, for its capture
    name, the nodes of the subtree it is run on whose type it names, in
    document order. *)
Record LanguageConfig : Type := {
  function_node_types : list string;
  class_node_types : list string;
  module_node_types : list string
}.

Definition Query := list string.

Record LanguageQueries : Type := {
  config : LanguageConfig;
  functions : Query;
  classes : Query;
  calls : option Query
}.

Definition type_in (types : list string) (n : Node) : bool :=
  bool_decide (node_type n ∈ types).

(** [QueryCursor(query).captures(node).get(name, [])] *)
Definition captures (q : Query) (n : Node) : list Node :=
  List.filter (type_in q) (subtree n).

Definition captures_located (q : Query) (n : Node) : list Located :=
  List.filter (fun ln => type_in q (fst ln)) (subtree_located [] n).

(** ** Emission of CALLS relationships *)

(** An argument of [ensure_relationship_batch]: [(label, key, value)]. *)
Definition NodeRef := (string * string * string)%type.

(** One call of [ingestor.ensure_relationship_batch(from, rel_type, to)].
    The call processor only writes to the ingestor; the relationships it
    asserts, in order, are what its functions return here. *)
Definition Relationship := (NodeRef * string * NodeRef)%type.

Definition calls_edge (caller_type caller_qn : string) (callee : Callee) : Relationship :=
  ((caller_type, "qualified_name", caller_qn), "CALLS",
   (fst callee, "qualified_name", snd callee)).

Definition rel_src_qn (r : Relationship) : string := snd (fst (fst r)).
Definition rel_dst_qn (r : Relationship) : string := snd (snd r).

(** [_get_call_target_name] *)
Definition _get_call_target_name (call_node : Node) : option string :=
  let from_name :=
    match child_by_field_name call_node "name" with
    | Some name_node => node_text name_node
    | None => None
    end in
  match child_by_field_name call_node "function" with
  | Some func_child =>
      if type_in ["identifier"; "attribute"; "member_expression"] func_child then
        match node_text func_child with
        | Some text => Some text
        | None => from_name
        end
      else from_name
  | None => from_name
  end.

Section Ingestion.

Variable function_registry : FunctionRegistry.t.
Variable import_mapping : gmap string StrDict.
Variable class_inheritance : gmap string (list string).
Variable resolve_class_name :
  string → string → gmap string StrDict → FunctionRegistry.t → option string.
Variable _infer_expression_return_type :
  string → string → option (gmap string string) → option string.

(** [self.type_inference.build_local_variable_type_map], outside the sources
    at hand (the language is fixed by [queries]). *)
Variable build_local_variable_type_map : Node → string → gmap string string.

(** [queries[language]] *)
Variable lang_queries : LanguageQueries.

Section Caller.

Variables (caller_qn caller_type module_qn : string).
Variable local_var_types : option (gmap string string).
Variable class_context : option string.

Definition resolve (call_name : string) : option Callee :=
  _resolve_function_call function_registry import_mapping class_inheritance
    resolve_class_name _infer_expression_return_type
    call_name module_qn local_var_types class_context.

(** The statements both [_ingest_function_calls] and
    [_find_and_process_nested_calls] run on a call node after its nested
    calls: take the target name, resolve it, assert the relationship. *)
Definition emit_call (call_node : Node) : list Relationship :=
  match _get_call_target_name call_node with
  | Some call_name =>
      if PyStr.truthy call_name then
        match resolve call_name with
        | Some callee_info => [calls_edge caller_type caller_qn callee_info]
        | None => []
        end
      else []
  | None => []
  end.

(** [_find_and_process_nested_calls].  The call to
    [_process_nested_calls_in_node] is written out as the search for the
    "function" field, for the recursion to be structural;
    [find_nested_unfold] gives the equation with the call restored. *)
Fixpoint _find_and_process_nested_calls (node : Node) : list Relationship :=
  let 'mkNode ty _ fs := node in
  (if bool_decide (ty = "call") then
     (fix in_function_field (fs : list (option string * Node)) : list Relationship :=
        match fs with
        | [] => []
        | (f, c) :: fs' =>
            if bool_decide (f = Some "function") then
              if bool_decide (node_type c = "attribute")
              then _find_and_process_nested_calls c
              else []
            else in_function_field fs'
        end) fs
     ++ emit_call node
   else [])
  ++ (fix each_child (fs : list (option string * Node)) : list Relationship :=
        match fs with
        | [] => []
        | (_, c) :: fs' => _find_and_process_nested_calls c ++ each_child fs'
        end) fs.

(** [_process_nested_calls_in_node] *)
Definition _process_nested_calls_in_node (call_node : Node) : list Relationship :=
  match child_by_field_name call_node "function" with
  | None => []
  | Some func_child =>
      if bool_decide (node_type func_child = "attribute")
      then _find_and_process_nested_calls func_child
      else []
  end.

(** The body of the loop of [_ingest_function_calls]. *)
Definition ingest_call_node (call_node : Node) : list Relationship :=
  _process_nested_calls_in_node call_node ++ emit_call call_node.

End Caller.

(** [_ingest_function_calls] *)
Definition _ingest_function_calls (caller_node : Node)
    (caller_qn caller_type module_qn : string)
    (class_context : option string) : list Relationship :=
  match calls lang_queries with
  | None => []
  | Some calls_query =>
      let local_var_types := build_local_variable_type_map caller_node module_qn in
      let call_nodes := captures calls_query caller_node in
      flat_map
        (ingest_call_node caller_qn caller_type module_qn
           (Some local_var_types) class_context)
        call_nodes
  end.

(** [_is_method], on the ancestors of the function node. *)
Fixpoint _is_method (ancestors : list Node) : bool :=
  match ancestors with
  | [] => false
  | current :: up =>
      if type_in (module_node_types (config lang_queries)) current then false
      else if type_in (class_node_types (config lang_queries)) current then true
      else _is_method up
  end.

(** The [while] loop of [_build_nested_qualified_name]: the names of the
    enclosing functions, innermost first; [None] when a class is met. *)
Fixpoint enclosing_path (ancestors : list Node) (path_parts : list string)
  : option (list string) :=
  match ancestors with
  | [] => Some path_parts
  | current :: up =>
      if type_in (module_node_types (config lang_queries)) current then Some path_parts
      else if type_in (function_node_types (config lang_queries)) current then
        match child_by_field_name current "name" with
        | Some name_node =>
            match node_text name_node with
            | Some text => enclosing_path up (path_parts ++ [text])
            | None => enclosing_path up path_parts
            end
        | None => enclosing_path up path_parts
        end
      else if type_in (class_node_types (config lang_queries)) current then None
      else enclosing_path up path_parts
  end.

(** [_build_nested_qualified_name] *)
Definition _build_nested_qualified_name (ancestors : list Node)
    (module_qn func_name : string) : option string :=
  match ancestors with
  | [] => None
  | _ :: _ =>
      match enclosing_path ancestors [] with
      | None => None
      | Some path_parts =>
          match reverse path_parts with
          | [] => Some (module_qn +:+ "." +:+ func_name)
          | (_ :: _) as rev_parts =>
              Some (module_qn +:+ "." +:+ PyStr.join "." rev_parts
                    +:+ "." +:+ func_name)
          end
      end
  end.

(** The text of the "name" field of a declaration node. *)
Definition declared_name (n : Node) : option string :=
  match child_by_field_name n "name" with
  | Some name_node => node_text name_node
  | None => None
  end.

(** The body of the loop of [_process_calls_in_functions]. *)
Definition process_function_node (module_qn : string) (func : Located)
  : list Relationship :=
  let '(func_node, ancestors) := func in
  if _is_method ancestors then []
  else
    match declared_name func_node with
    | None => []
    | Some func_name =>
        match _build_nested_qualified_name ancestors module_qn func_name with
        | Some func_qn =>
            if PyStr.truthy func_qn then
              _ingest_function_calls func_node func_qn "Function" module_qn None
            else []
        | None => []
        end
    end.

(** [_process_calls_in_functions] *)
Definition _process_calls_in_functions (root_node : Node) (module_qn : string)
  : list Relationship :=
  flat_map (process_function_node module_qn)
    (captures_located (functions lang_queries) root_node).

(** The inner loop of [_process_calls_in_classes], for one method node. *)
Definition process_method_node (module_qn class_qn : string) (method_node : Node)
  : list Relationship :=
  match declared_name method_node with
  | None => []
  | Some method_name =>
      let method_qn := class_qn +:+ "." +:+ method_name in
      _ingest_function_calls method_node method_qn "Method" module_qn (Some class_qn)
  end.

(** The body of the outer loop of [_process_calls_in_classes]. *)
Definition process_class_node (module_qn : string) (class_node : Node)
  : list Relationship :=
  match declared_name class_node with
  | None => []
  | Some class_name =>
      let class_qn := module_qn +:+ "." +:+ class_name in
      match child_by_field_name class_node "body" with
      | None => []
      | Some body_node =>
          flat_map (process_method_node module_qn class_qn)
            (captures (functions lang_queries) body_node)
      end
  end.

(** [_process_calls_in_classes] *)
Definition _process_calls_in_classes (root_node : Node) (module_qn : string)
  : list Relationship :=
  flat_map (process_class_node module_qn)
    (captures (classes lang_queries) root_node).

(** The two passes [process_calls_in_file] runs over a parsed file. *)
Definition process_calls (root_node : Node) (module_qn : string) : list Relationship :=
  _process_calls_in_functions root_node module_qn
  ++ _process_calls_in_classes root_node module_qn.

End Ingestion.

(** ** Module names of files *)

(** [PurePath.suffix] and the stem it leaves, for a file name: the suffix
    starts at the last dot of the name when that dot is neither its first
    nor its last character.  The result is [(stem, extension)]. *)
Definition split_suffix (name : string) : option (string * string) :=
  let parts := PyStr.split dot name in
  match reverse parts with
  | extension :: _ :: _ =>
      let stem := PyStr.join "." (removelast parts) in
      if PyStr.truthy stem && PyStr.truthy extension
      then Some (stem, extension)
      else None
  | _ => None
  end.

(** [list(path.with_suffix("").parts)] for a relative path given by its
    parts; [None] stands for the [ValueError] raised on a path without a
    name. *)
Definition with_suffix_empty (parts : list string) : option (list string) :=
  match reverse parts with
  | [] => None
  | name :: _ =>
      let stem :=
        match split_suffix name with
        | Some (stem, _) => stem
        | None => name
        end in
      Some (removelast parts ++ [stem])
  end.

(** The module name [process_calls_in_file] computes for the file at
    [relative_path] (its parts below the repository root); [None] when the
    computation raises, which the function catches and logs. *)
Definition file_module_qn (project_name : string) (relative_parts : list string)
  : option string :=
  match with_suffix_empty relative_parts with
  | None => None
  | Some stem_parts =>
      if String.eqb (List.last relative_parts "") "__init__.py"
      then Some (PyStr.join "." (project_name :: removelast relative_parts))
      else Some (PyStr.join "." (project_name :: stem_parts))
  end.

(** [process_calls_in_file], on the parts of [file_path] relative to the
    repository root. *)
Definition process_calls_in_file
    (function_registry : FunctionRegistry.t)
    (import_mapping : gmap string StrDict)
    (class_inheritance : gmap string (list string))
    (resolve_class_name :
       string → string → gmap string StrDict → FunctionRegistry.t → option string)
    (_infer_expression_return_type :
       string → string → option (gmap string string) → option string)
    (build_local_variable_type_map : Node → string → gmap string string)
    (lang_queries : LanguageQueries)
    (project_name : string) (relative_parts : list string) (root_node : Node)
  : list Relationship :=
  match file_module_qn project_name relative_parts with
  | Some module_qn =>
      process_calls function_registry import_mapping class_inheritance
        resolve_class_name _infer_expression_return_type
        build_local_variable_type_map lang_queries root_node module_qn
  | None => []
  end.

(** ** Notions used in the statements *)

(** The callee is a key of the registry, bound to the kind returned. *)
Definition registered (reg : FunctionRegistry.t) (c : Callee) : Prop :=
  FunctionRegistry.get reg (snd c) = Some (fst c).

(** The names the wildcard phase probes for [call_name], in order: for each
    entry of the import map whose key starts with "*", the "::"-joined name
    alone when the target contains "::", and otherwise the "."-joined name
    followed by the "::"-joined name. *)
Definition wildcard_probes (items : StrDict) (call_name : string) : list string :=
  flat_map
    (fun entry : string * string =>
       let '(local_name, imported_qn) := entry in
       if PyStr.startswith local_name "*" then
         if PyStr.contains "::" imported_qn
         then [imported_qn +:+ "::" +:+ call_name]
         else [imported_qn +:+ "." +:+ call_name; imported_qn +:+ "::" +:+ call_name]
       else [])
    items.

(** The parents among [gps] that [enqueue_unvisited] appends: those not
    visited yet, each once, in order. *)
Fixpoint fresh (gps : list string) (visited : gset string) : list string :=
  match gps with
  | [] => []
  | g :: gps' =>
      if decide (g ∈ visited) then fresh gps' visited
      else g :: fresh gps' ({[g]} ∪ visited)
  end.

(** Breadth-first traversal by levels.  The level after [level] lists, class
    by class in the order of [level], the declared parents of the class that
    were not visited before, in declared order. *)
Fixpoint next_level (class_inheritance : gmap string (list string))
    (level : list string) (visited : gset string) : list string * gset string :=
  match level with
  | [] => ([], visited)
  | p :: level' =>
      let new := fresh (default [] (class_inheritance !! p)) visited in
      let '(rest, visited') :=
        next_level class_inheritance level' (list_to_set new ∪ visited) in
      (new ++ rest, visited')
  end.

(** At most [n] levels, starting from [level]. *)
Fixpoint bfs_levels (class_inheritance : gmap string (list string)) (n : nat)
    (level : list string) (visited : gset string) : list (list string) :=
  match n with
  | O => []
  | S n' =>
      match level with
      | [] => []
      | _ :: _ =>
          let '(next, visited') := next_level class_inheritance level visited in
          level :: bfs_levels class_inheritance n' next visited'
      end
  end.

(** The classes above [class_qn] in breadth-first order: its declared
    parents, then their unvisited parents, and so on.  Every level but the
    first brings a class not seen before, so there are no more levels than
    classes named as parents, plus one. *)
Definition bfs_order (class_inheritance : gmap string (list string))
    (class_qn : string) : list string :=
  let parents := default [] (class_inheritance !! class_qn) in
  concat (bfs_levels class_inheritance (S (size (all_parents class_inheritance)))
            parents (list_to_set parents)).

(** The first class of [order] that has [method_name] registered. *)
Fixpoint first_hit (reg : FunctionRegistry.t) (method_name : string)
    (order : list string) : option Callee :=
  match order with
  | [] => None
  | p :: order' =>
      match registry_hit reg (p +:+ "." +:+ method_name) with
      | Some hit => Some hit
      | None => first_hit reg method_name order'
      end
  end.

(** [a] is a parent of [class_qn], or a parent of a parent, and so on. *)
Inductive ancestor (class_inheritance : gmap string (list string))
    (class_qn : string) : string → Prop :=
| ancestor_parent parents p :
    class_inheritance !! class_qn = Some parents → p ∈ parents →
    ancestor class_inheritance class_qn p
| ancestor_step a parents g :
    ancestor class_inheritance class_qn a →
    class_inheritance !! a = Some parents → g ∈ parents →
    ancestor class_inheritance class_qn g.

(** A class misses when it has no method of that name registered. *)
Definition misses (reg : FunctionRegistry.t) (method_name p : string) : Prop :=
  FunctionRegistry.get reg (p +:+ "." +:+ method_name) = None.

(** The outcome of a walk that is not cut short, from its result. *)
Definition outcome_of (hit : option Callee) : walk_outcome :=
  match hit with
  | Some (kind, qn) => Found kind qn
  | None => Exhausted
  end.

(** A node that the walk over the ancestors of a function passes by: neither
    a module, nor a function, nor a class. *)
Definition passed_by (lq : LanguageQueries) (n : Node) : Prop :=
  type_in (module_node_types (config lq)) n = false
  ∧ type_in (function_node_types (config lq)) n = false
  ∧ type_in (class_node_types (config lq)) n = false.

(** [a] is reached from [class_qn] by [k] steps from a class to one of its
    declared parents. *)
Inductive reach (class_inheritance : gmap string (list string))
    (class_qn : string) : nat → string → Prop :=
| reach_parent parents p :
    class_inheritance !! class_qn = Some parents → p ∈ parents →
    reach class_inheritance class_qn 1 p
| reach_step k a parents g :
    reach class_inheritance class_qn k a →
    class_inheritance !! a = Some parents → g ∈ parents →
    reach class_inheritance class_qn (S k) g.

(** ** Example inputs *)

Module Examples.

(** Stand-ins for the two collaborators the examples never reach. *)
Definition no_class_resolution :
  string → string → gmap string StrDict → FunctionRegistry.t → option string :=
  fun _ _ _ _ => None.

Definition no_inference :
  string → string → option (gmap string string) → option string :=
  fun _ _ _ => None.

(** A class resolution that knows the class [Repo] of module [project.m]. *)
Definition repo_class_resolution :
  string → string → gmap string StrDict → FunctionRegistry.t → option string :=
  fun class_name _ _ _ =>
    if String.eqb class_name "Repo" then Some "project.m.Repo" else None.

(** Python syntax trees.  Only identifiers and attribute expressions carry
    their text here: the call processor reads no other text. *)
Definition python_queries : LanguageQueries :=
  {| config := {| function_node_types := ["function_definition"];
                  class_node_types := ["class_definition"];
                  module_node_types := ["module"] |};
     functions := ["function_definition"];
     classes := ["class_definition"];
     calls := Some ["call"] |}.

Definition no_local_types : Node → string → gmap string string := fun _ _ => ∅.

Definition ident (name : string) : Node := mkNode "identifier" (Some name) [].

Definition attribute (text : string) (object attr : Node) : Node :=
  mkNode "attribute" (Some text) [(Some "object", object); (Some "attribute", attr)].

Definition call (callee : Node) : Node :=
  mkNode "call" None
    [(Some "function", callee); (Some "arguments", mkNode "argument_list" None [])].

Definition statement (expr : Node) : option string * Node :=
  (None, mkNode "expression_statement" None [(None, expr)]).

Definition function_def (name : string) (body : list (option string * Node)) : Node :=
  mkNode "function_definition" None
    [(Some "name", ident name);
     (Some "parameters", mkNode "parameters" None []);
     (Some "body", mkNode "block" None body)].

Definition class_def (name : string) (body : list (option string * Node)) : Node :=
  mkNode "class_definition" None
    [(Some "name", ident name); (Some "body", mkNode "block" None body)].

(** [def f(): pass] and a class [C] whose method [m] defines a function
    [inner] that calls [f()]. *)
Definition inner_def : Node := function_def "inner" [statement (call (ident "f"))].

Definition nested_module : Node :=
  mkNode "module" None
    [(None, function_def "f" [(None, mkNode "pass_statement" None [])]);
     (None, class_def "C" [(None, function_def "m" [(None, inner_def)])])].

(** The registry of that module, the nested function under the name of its
    scope as the tests of the structure scanner expect it. *)
Definition nested_registry : FunctionRegistry.t :=
  [("proj.mod.f", "Function"); ("proj.mod.C.m", "Method");
   ("proj.mod.C.m.inner", "Function")].

(** [def g(): a.b().c()] *)
Definition inner_call : Node := call (attribute "a.b" (ident "a") (ident "b")).
Definition outer_call : Node := call (attribute "a.b().c" inner_call (ident "c")).
Definition chain_function : Node := function_def "g" [statement outer_call].

Definition chain_registry : FunctionRegistry.t :=
  [("proj.mod.a.b", "Method"); ("proj.mod.g", "Function")].

(** [def h(): unknown(); f()] *)
Definition unknown_call : Node := call (ident "unknown").
Definition known_call : Node := call (ident "f").
Definition two_calls_function : Node :=
  function_def "h" [statement unknown_call; statement known_call].

Definition two_calls_registry : FunctionRegistry.t :=
  [("proj.mod.f", "Function"); ("proj.mod.h", "Function")].

End Examples.

(** ** Lemmas on the string operations *)

Section StringFacts.

(* stdpp blocks the unfolding of string concatenation; the lemmas of this
   section go by induction on the characters and need it. *)
#[local] Arguments String.append !_ _ : simpl nomatch.

Lemma append_empty_r (s : string) : s +:+ "" = s.
Proof. induction s as [|c s IH]; simpl; [done | by f_equal]. Qed.

Lemma append_assoc (a b c : string) : (a +:+ b) +:+ c = a +:+ (b +:+ c).
Proof. induction a as [|x a IH]; simpl; [done | by f_equal]. Qed.

Lemma prefix_app (p s : string) : String.prefix p (p +:+ s) = true.
Proof.
  induction p as [|c p IH]; simpl; [by destruct s |].
  destruct (ascii_dec c c); [apply IH | congruence].
Qed.

Lemma prefix_inv (p s : string) :
  String.prefix p s = true → ∃ t, s = p +:+ t.
Proof.
  revert s; induction p as [|c p IH]; intros s H.
  - by exists s.
  - destruct s as [|d s]; simpl in H; [done |].
    destruct (ascii_dec c d) as [->|]; [| done].
    destruct (IH _ H) as [t ->]. by exists t.
Qed.

Lemma prefix_iff (p s : string) :
  String.prefix p s = true ↔ ∃ t, s = p +:+ t.
Proof.
  split; [apply prefix_inv |]. intros [t ->]. apply prefix_app.
Qed.

Lemma split_nonempty sep s : PyStr.split sep s ≠ [].
Proof.
  destruct s as [|c s]; simpl; [done |].
  destruct (Ascii.eqb c sep); [done |].
  by destruct (PyStr.split sep s).
Qed.

Lemma split_cons_sep sep s :
  PyStr.split sep (String sep s) = "" :: PyStr.split sep s.
Proof. simpl. by rewrite Ascii.eqb_refl. Qed.

Lemma split_cons_other sep c s h t :
  c ≠ sep → PyStr.split sep s = h :: t →
  PyStr.split sep (String c s) = String c h :: t.
Proof.
  intros Hc Hs. simpl. rewrite Hs.
  destruct (Ascii.eqb_spec c sep); [done | done].
Qed.

(** Joining the pieces of a split gives the string back. *)
Lemma join_split s : PyStr.join "." (PyStr.split dot s) = s.
Proof.
  induction s as [|c s IH]; [done |].
  simpl. destruct (Ascii.eqb_spec c dot) as [->|Hc].
  - unfold PyStr.join in *. simpl.
    destruct (PyStr.split dot s) eqn:E; [by destruct (split_nonempty dot s) |].
    simpl in *. by rewrite IH.
  - destruct (PyStr.split dot s) as [|h t] eqn:E;
      [by destruct (split_nonempty dot s) |].
    unfold PyStr.join in *. simpl in *.
    destruct t as [|h' t]; simpl in *; by rewrite <- IH.
Qed.

(** Splitting distributes over a separator in the middle. *)
Lemma split_app_sep sep a b :
  PyStr.split sep (a +:+ String sep b) = PyStr.split sep a ++ PyStr.split sep b.
Proof.
  induction a as [|c a IH].
  - simpl. by rewrite Ascii.eqb_refl.
  - simpl. destruct (Ascii.eqb c sep); [by rewrite IH |].
    rewrite IH.
    destruct (PyStr.split sep a) as [|h t] eqn:E;
      [by destruct (split_nonempty sep a) | done].
Qed.

(** A string without the separator is a single piece. *)
Lemma split_no_sep sep s :
  PyStr.contains (String sep "") s = false → PyStr.split sep s = [s].
Proof.
  induction s as [|c s IH]; [done |].
  simpl. destruct (ascii_dec sep c) as [->|Hne].
  - by destruct s.
  - simpl. intros H. rewrite (IH H).
    destruct (Ascii.eqb_spec c sep); [congruence | done].
Qed.

Lemma contains_sep_iff sep s :
  PyStr.contains (String sep "") s = true ↔ ∃ a b, s = a +:+ String sep b.
Proof.
  induction s as [|c s IH]; simpl.
  - split; [done |]. intros (a & b & H). by destruct a.
  - destruct (ascii_dec sep c) as [->|Hne].
    + split; [| by destruct s]. intros _. by exists "", s.
    + simpl. rewrite IH. split.
      * intros (a & b & ->). by exists (String c a), b.
      * intros (a & b & H). destruct a as [|x a]; simpl in H.
        -- congruence.
        -- injection H as -> ->. by exists a, b.
Qed.

(** The pieces of a split do not contain the separator. *)
Lemma split_pieces_no_sep sep s x :
  x ∈ PyStr.split sep s → PyStr.contains (String sep "") x = false.
Proof.
  revert x; induction s as [|c s IH]; intros x; simpl.
  - intros ->%list_elem_of_singleton. done.
  - destruct (Ascii.eqb_spec c sep) as [->|Hc].
    + intros [->|H]%elem_of_cons; [done | by apply IH].
    + destruct (PyStr.split sep s) as [|h t] eqn:E;
        [by destruct (split_nonempty sep s) |].
      intros [->|H]%elem_of_cons.
      * simpl. destruct (ascii_dec sep c); [congruence |].
        simpl. apply IH. left.
      * apply IH. by right.
Qed.

End StringFacts.

(** ** Facts on the resolver *)

Section ResolverFacts.

Context (reg : FunctionRegistry.t) (im : gmap string StrDict)
  (ci : gmap string (list string))
  (rcn : string → string → gmap string StrDict → FunctionRegistry.t → option string)
  (inf : string → string → option (gmap string string) → option string).

Lemma registry_hit_sound qn k q :
  registry_hit reg qn = Some (k, q) → q = qn ∧ FunctionRegistry.get reg q = Some k.
Proof.
  unfold registry_hit. destruct (FunctionRegistry.get reg qn) eqn:E; [| done].
  by intros [= <- <-].
Qed.

Lemma registry_hit_get qn k :
  FunctionRegistry.get reg qn = Some k → registry_hit reg qn = Some (k, qn).
Proof. unfold registry_hit. by intros ->. Qed.

Lemma truthy_ne s : s ≠ "" → PyStr.truthy s = true.
Proof.
  intros H. unfold PyStr.truthy. destruct (String.eqb_spec s ""); done.
Qed.

Lemma split_name_rest name rest :
  PyStr.contains "." name = false →
  PyStr.split dot (name +:+ "." +:+ rest) = name :: PyStr.split dot rest.
Proof.
  intros H. change ("." +:+ rest) with (String dot rest).
  rewrite split_app_sep. by rewrite (split_no_sep dot name H).
Qed.

Lemma contains_name_rest name rest :
  PyStr.contains "." (name +:+ "." +:+ rest) = true.
Proof. apply (contains_sep_iff dot). by exists name, rest. Qed.

End ResolverFacts.

(** ** Every resolved callee is registered *)

Section Soundness.

Context (reg : FunctionRegistry.t) (im : gmap string StrDict)
  (ci : gmap string (list string))
  (rcn : string → string → gmap string StrDict → FunctionRegistry.t → option string)
  (inf : string → string → option (gmap string string) → option string).

Lemma registry_hit_registered qn c : registry_hit reg qn = Some c → registered reg c.
Proof.
  destruct c as [k q]. intros [-> H]%registry_hit_sound. exact H.
Qed.

Lemma inheritance_walk_registered fuel m queue visited k q :
  inheritance_walk reg ci fuel m queue visited = Found k q → registered reg (k, q).
Proof.
  revert queue visited.
  induction fuel as [|fuel IH]; intros queue visited; simpl; [done |].
  destruct queue as [|p queue]; [done |].
  destruct (FunctionRegistry.get reg (p +:+ "." +:+ m)) as [kind|] eqn:E.
  - intros [= <- <-]. exact E.
  - destruct (ci !! p) as [gps|].
    + destruct (enqueue_unvisited gps queue visited) as [q' v']. apply IH.
    + apply IH.
Qed.

Lemma inherited_method_registered class_qn m c :
  _resolve_inherited_method reg ci class_qn m = Some c → registered reg c.
Proof.
  unfold _resolve_inherited_method.
  destruct (ci !! class_qn) as [parents|]; [| done].
  destruct (inheritance_walk _ _ _ _ _ _) as [| |k q] eqn:E; [done | done |].
  intros [= <-]. by eapply inheritance_walk_registered.
Qed.

Lemma super_call_registered call_name module_qn ctx c :
  _resolve_super_call reg ci call_name module_qn ctx = Some c → registered reg c.
Proof.
  unfold _resolve_super_call.
  destruct (PyStr.after_first dot call_name) as [m|]; [| done].
  destruct ctx as [cls|]; [| done].
  destruct (negb (PyStr.truthy cls)); [done |].
  destruct (ci !! cls) as [[|p ps]|]; [done | | done].
  apply inherited_method_registered.
Qed.

Lemma chained_call_registered call_name module_qn lvt c :
  _resolve_chained_call reg im ci rcn inf call_name module_qn lvt = Some c →
  registered reg c.
Proof.
  unfold _resolve_chained_call.
  destruct (final_method_match call_name) as [[object_expr final]|]; [| done].
  destruct (inf object_expr module_qn lvt) as [ty|]; [| done].
  destruct (negb (PyStr.truthy ty)); [done |].
  destruct (registry_hit reg _) as [hit|] eqn:E.
  - intros [= <-]. by eapply registry_hit_registered.
  - apply inherited_method_registered.
Qed.

Lemma resolve_on_type_registered import_map module_qn var_type m c :
  resolve_on_type reg im ci rcn import_map module_qn var_type m = Some c →
  registered reg c.
Proof.
  unfold resolve_on_type.
  destruct (PyStr.truthy _); [| done].
  destruct (registry_hit reg _) as [hit|] eqn:E.
  - intros [= <-]. by eapply registry_hit_registered.
  - apply inherited_method_registered.
Qed.

Lemma qualified_call_registered import_map call_name module_qn lvt c :
  qualified_call reg im ci rcn import_map call_name module_qn lvt = Some c →
  registered reg c.
Proof.
  unfold qualified_call.
  destruct (PyStr.contains "." call_name); [| done].
  destruct (_ && _).
  - destruct (lvt_get lvt _); [| done]. apply resolve_on_type_registered.
  - destruct (dict_get import_map _) as [class_qn|].
    + destruct (registry_hit reg _) as [hit|] eqn:E.
      * intros [= <-]. by eapply registry_hit_registered.
      * destruct (lvt_get lvt _); [| done]. apply resolve_on_type_registered.
    + destruct (lvt_get lvt _); [| done]. apply resolve_on_type_registered.
Qed.

Lemma first_registered_registered qns c :
  first_registered reg qns = Some c → registered reg c.
Proof.
  induction qns as [|qn qns IH]; simpl; [done |].
  destruct (registry_hit reg qn) as [hit|] eqn:E; [| exact IH].
  intros [= <-]. by eapply registry_hit_registered.
Qed.

Lemma wildcard_imports_registered items call_name c :
  wildcard_imports reg items call_name = Some c → registered reg c.
Proof.
  induction items as [|[local_name imported_qn] items IH]; simpl; [done |].
  destruct (PyStr.startswith local_name "*"); [| exact IH].
  destruct (first_registered reg _) as [hit|] eqn:E; [| exact IH].
  intros [= <-]. by eapply first_registered_registered.
Qed.

Lemma import_phase_registered call_name module_qn lvt c :
  import_phase reg im ci rcn call_name module_qn lvt = Some c → registered reg c.
Proof.
  unfold import_phase. destruct (im !! module_qn) as [import_map|]; [| done].
  destruct (direct_import reg import_map call_name) as [hit|] eqn:E1.
  - intros [= <-]. unfold direct_import in E1.
    destruct (dict_get import_map call_name); [| done].
    by eapply registry_hit_registered.
  - destruct (qualified_call _ _ _ _ _ _ _ _) as [hit|] eqn:E2.
    + intros [= <-]. by eapply qualified_call_registered.
    + apply wildcard_imports_registered.
Qed.

Lemma suffix_fallback_registered call_name module_qn c :
  suffix_fallback reg call_name module_qn = Some c → registered reg c.
Proof.
  unfold suffix_fallback.
  destruct (FunctionRegistry.find_ending_with reg call_name); [done |].
  destruct (sort_by_key _ _); [done |]. apply registry_hit_registered.
Qed.

(** Whatever [_resolve_function_call] returns is a key of the registry. *)
Lemma resolve_registered call_name module_qn lvt ctx c :
  _resolve_function_call reg im ci rcn inf call_name module_qn lvt ctx = Some c →
  registered reg c.
Proof.
  unfold _resolve_function_call.
  destruct (PyStr.startswith call_name "super()");
    [apply super_call_registered |].
  destruct (_ && _); [apply chained_call_registered |].
  destruct (import_phase _ _ _ _ _ _ _) as [hit|] eqn:E1.
  { intros [= <-]. by eapply import_phase_registered. }
  destruct (same_module reg call_name module_qn) as [hit|] eqn:E2.
  { intros [= <-]. by eapply registry_hit_registered. }
  apply suffix_fallback_registered.
Qed.

End Soundness.

(** ** The suffix fallback never meets an unregistered name *)

Section SuffixFallback.

Context (reg : FunctionRegistry.t).

Lemma dict_get_key (d : StrDict) k : k ∈ List.map fst d → is_Some (dict_get d k).
Proof.
  induction d as [|[k' v] d IH]; simpl; [by intros ?%elem_of_nil |].
  destruct (String.eqb_spec k' k) as [-> | Hne]; [by eexists |].
  intros [-> | H]%elem_of_cons; [done | by apply IH].
Qed.

Lemma find_ending_with_registered tail qn :
  qn ∈ FunctionRegistry.find_ending_with reg tail →
  is_Some (FunctionRegistry.get reg qn).
Proof.
  unfold FunctionRegistry.find_ending_with.
  intros [Hin _]%list_elem_of_In%filter_In.
  apply dict_get_key. by apply list_elem_of_In.
Qed.

Lemma insert_by_key_elem key x l y :
  y ∈ insert_by_key key x l ↔ y = x ∨ y ∈ l.
Proof.
  induction l as [|z l IH]; simpl.
  - rewrite list_elem_of_singleton. set_solver.
  - destruct (key x <=? key z)%Z.
    + by rewrite elem_of_cons.
    + rewrite !elem_of_cons, IH. tauto.
Qed.

Lemma sort_by_key_elem key l y : y ∈ sort_by_key key l ↔ y ∈ l.
Proof.
  induction l as [|x l IH]; simpl; [done |].
  rewrite insert_by_key_elem, elem_of_cons, IH. tauto.
Qed.

(** The best candidate has the least distance. *)
Lemma insert_by_key_head key x l best rest :
  (∀ b r, l = b :: r → ∀ y, y ∈ l → (key b <= key y)%Z) →
  insert_by_key key x l = best :: rest →
  ∀ y, y ∈ x :: l → (key best <= key y)%Z.
Proof.
  destruct l as [|z l]; simpl.
  - intros _ [= <- <-] y ->%list_elem_of_singleton. lia.
  - intros Hmin. specialize (Hmin z l eq_refl).
    destruct (Z.leb_spec (key x) (key z)).
    + intros [= <- <-] y [-> | Hy]%elem_of_cons; [lia |].
      specialize (Hmin y Hy). lia.
    + intros [= <- <-] y [-> | Hy]%elem_of_cons; [lia | by apply Hmin].
Qed.

Lemma sort_by_key_head key l best rest :
  sort_by_key key l = best :: rest → ∀ y, y ∈ l → (key best <= key y)%Z.
Proof.
  revert best rest. induction l as [|x l IH]; intros best rest; simpl; [done |].
  intros Hins y Hy.
  apply (insert_by_key_head key x (sort_by_key key l) best rest); [| done |].
  - intros b r Hl z Hz. apply (IH b r Hl). by apply (sort_by_key_elem key l z).
  - apply elem_of_cons in Hy as [-> | Hy]; [left | right].
    by apply (sort_by_key_elem key l y).
Qed.

(** When some registered name ends in the call name, the fallback resolves
    the call: the [KeyError] branch of its subscript is dead. *)
Lemma suffix_fallback_resolves call_name module_qn :
  FunctionRegistry.find_ending_with reg call_name ≠ [] →
  is_Some (suffix_fallback reg call_name module_qn).
Proof.
  unfold suffix_fallback. intros Hne.
  destruct (FunctionRegistry.find_ending_with reg call_name) as [|c cs] eqn:Hfind;
    [done |].
  destruct (sort_by_key _ (c :: cs)) as [|best rest] eqn:Hsort.
  - assert (c ∈ sort_by_key
                  (λ qn, _calculate_import_distance qn module_qn) (c :: cs)) as Hc
      by (apply sort_by_key_elem; left).
    rewrite Hsort in Hc. by apply elem_of_nil in Hc.
  - assert (Hbest : best ∈ FunctionRegistry.find_ending_with reg call_name).
    { rewrite Hfind. eapply sort_by_key_elem. rewrite Hsort. left. }
    apply find_ending_with_registered in Hbest as [kind Hkind].
    unfold registry_hit. rewrite Hkind. by eexists.
Qed.

End SuffixFallback.

(** ** Terminal phases (C9) *)

(** C9. A call name that begins with "super()", or that contains a dot and is
    classified as a method chain, is resolved by that phase alone: the result
    of [_resolve_function_call] is the result of [_resolve_super_call],
    respectively of [_resolve_chained_call], and so it is [None] whenever
    that phase misses, whatever the import map, the same-module probe and
    the suffix fallback would give. *)
Theorem C9_super_and_chain_phases_are_terminal
    (reg : FunctionRegistry.t) (im : gmap string StrDict)
    (ci : gmap string (list string))
    (rcn : string → string → gmap string StrDict → FunctionRegistry.t → option string)
    (inf : string → string → option (gmap string string) → option string)
    (call_name module_qn : string) (lvt : option (gmap string string))
    (ctx : option string) :
  PyStr.startswith call_name "super()" = true
  ∨ (PyStr.contains "." call_name = true ∧ _is_method_chain call_name = true) →
  let phase_result :=
    if PyStr.startswith call_name "super()"
    then _resolve_super_call reg ci call_name module_qn ctx
    else _resolve_chained_call reg im ci rcn inf call_name module_qn lvt in
  _resolve_function_call reg im ci rcn inf call_name module_qn lvt ctx = phase_result
  ∧ (phase_result = None →
     _resolve_function_call reg im ci rcn inf call_name module_qn lvt ctx = None).
Proof.
  intros H phase_result.
  assert (Heq : _resolve_function_call reg im ci rcn inf call_name module_qn lvt ctx
                = phase_result).
  { unfold _resolve_function_call, phase_result.
    destruct (PyStr.startswith call_name "super()"); [done |].
    destruct H as [H | [-> ->]]; [done | done]. }
  split; [exact Heq | by rewrite Heq].
Qed.

(** A super call without class context and a chain whose receiver type is
    unknown stay unresolved although the same-module probe would hit. *)
Lemma C9_witness :
  let reg : FunctionRegistry.t :=
    [("pkg.mod.super().run", "Function"); ("pkg.mod.a.b().c", "Function")] in
  (same_module reg "super().run" "pkg.mod" = Some ("Function", "pkg.mod.super().run")
   ∧ _resolve_function_call reg ∅ ∅ Examples.no_class_resolution
       Examples.no_inference "super().run" "pkg.mod" None None = None)
  ∧ (same_module reg "a.b().c" "pkg.mod" = Some ("Function", "pkg.mod.a.b().c")
     ∧ _resolve_function_call reg ∅ ∅ Examples.no_class_resolution
         Examples.no_inference "a.b().c" "pkg.mod" None None = None).
Proof.
  intros reg. split; (split; [reflexivity |]).
  - apply (C9_super_and_chain_phases_are_terminal reg ∅ ∅
             Examples.no_class_resolution Examples.no_inference
             "super().run" "pkg.mod" None None); [left |]; reflexivity.
  - apply (C9_super_and_chain_phases_are_terminal reg ∅ ∅
             Examples.no_class_resolution Examples.no_inference
             "a.b().c" "pkg.mod" None None); [right; split |]; reflexivity.
Defined.

(** ** Wildcard expansion (C2) *)

Lemma first_registered_app reg l1 l2 :
  first_registered reg (l1 ++ l2)
  = match first_registered reg l1 with
    | Some hit => Some hit
    | None => first_registered reg l2
    end.
Proof.
  induction l1 as [|qn l1 IH]; simpl; [done |].
  by destruct (registry_hit reg qn).
Qed.

(** C2, as the code has it.  The wildcard phase returns the first registered
    name among the probes of [wildcard_probes]: entry by entry in the order
    of the import map, a target that contains "::" is probed in its
    "::"-joined form only, and a target without "::" in its "."-joined form
    and then in its "::"-joined form. *)
Theorem C2_wildcard_probe_forms (reg : FunctionRegistry.t) (items : StrDict)
    (call_name : string) :
  wildcard_imports reg items call_name
  = first_registered reg (wildcard_probes items call_name).
Proof.
  induction items as [|[local_name imported_qn] items IH]; [done |].
  simpl. rewrite first_registered_app, <- IH. unfold potential_qns.
  by destruct (PyStr.startswith local_name "*").
Qed.

(** The package ["a::b"] was recorded with "::"; the registry holds the
    "."-joined name ["a::b.f"], which is never probed: the resolver moves on
    to the next wildcard entry and returns ["c.f"]. *)
Lemma C2_counterexample :
  let reg : FunctionRegistry.t := [("a::b.f", "Function"); ("c.f", "Function")] in
  let im : gmap string StrDict := {[ "app" := [("*a::b", "a::b"); ("*c", "c")] ]} in
  PyStr.contains "::" "a::b" = true
  ∧ FunctionRegistry.get reg "a::b.f" = Some "Function"
  ∧ potential_qns "a::b" "f" = ["a::b::f"]
  ∧ _resolve_function_call reg im ∅ Examples.no_class_resolution
      Examples.no_inference "f" "app" None None = Some ("Function", "c.f").
Proof. by vm_compute. Qed.

(** ** Calls on a typed local variable (C4) *)

Section C4.
Context (reg : FunctionRegistry.t) (im : gmap string StrDict)
  (ci : gmap string (list string))
  (rcn : string → string → gmap string StrDict → FunctionRegistry.t → option string)
  (inf : string → string → option (gmap string string) → option string).

(** C4, as the code has it.  In a module that has an import map (an empty
    one will do), a call [name.rest] that is neither a super call nor a
    method chain, that the direct import lookup does not resolve and that is
    not of the [self.attr.method] form, with [name] absent from the import
    map and bound in [local_var_types] to a type resolving to a non-empty
    [class_qn] (through the import map, else through [resolve_class_name])
    such that [class_qn.rest] is registered, resolves to that method. *)
Theorem C4_local_variable_call_with_import_map
    module_qn import_map lvt ctx name rest var_type kind :
  let call_name := name +:+ "." +:+ rest in
  let class_qn :=
    match dict_get import_map var_type with
    | Some qn => qn
    | None => default "" (rcn var_type module_qn im reg)
    end in
  im !! module_qn = Some import_map →
  PyStr.startswith call_name "super()" = false →
  _is_method_chain call_name = false →
  PyStr.contains "." name = false →
  (name ≠ "self" ∨ PyStr.contains "." rest = false) →
  direct_import reg import_map call_name = None →
  dict_get import_map name = None →
  lvt_get lvt name = Some var_type →
  class_qn ≠ "" →
  FunctionRegistry.get reg (class_qn +:+ "." +:+ rest) = Some kind →
  _resolve_function_call reg im ci rcn inf call_name module_qn lvt ctx
  = Some (kind, class_qn +:+ "." +:+ rest).
Proof.
  intros call_name class_qn Him Hsup Hch Hname Hself Hdir Himp Hlvt Hne Hreg.
  unfold _resolve_function_call. rewrite Hsup, Hch, andb_false_r.
  unfold import_phase. rewrite Him, Hdir.
  unfold qualified_call. subst call_name.
  rewrite contains_name_rest, !split_name_rest by done.
  assert (Hform : Nat.leb 3 (length (name :: PyStr.split dot rest))
                  && bool_decide (head (name :: PyStr.split dot rest) = Some "self")
                  = false).
  { destruct Hself as [Hn | Hr].
    - rewrite bool_decide_eq_false_2; [apply andb_false_r |].
      simpl. congruence.
    - by rewrite (split_no_sep dot rest Hr). }
  rewrite Hform. simpl hd. simpl tail.
  rewrite Himp, Hlvt. unfold resolve_on_type, _resolve_class_name.
  fold class_qn. rewrite (truthy_ne _ Hne), join_split.
  by rewrite (registry_hit_get _ _ _ Hreg).
Qed.
End C4.

(** With [from m import Repo] recorded for module [project.u], the call
    [r.find_by_id] on [r = Repo()] resolves to the method. *)
Lemma C4_witness :
  _resolve_function_call
    [("project.m.Repo.find_by_id", "Method")]
    {[ "project.u" := [("Repo", "project.m.Repo")] ]} ∅
    Examples.no_class_resolution Examples.no_inference
    "r.find_by_id" "project.u" (Some {[ "r" := "Repo" ]}) None
  = Some ("Method", "project.m.Repo.find_by_id").
Proof.
  apply (C4_local_variable_call_with_import_map
           [("project.m.Repo.find_by_id", "Method")]
           {[ "project.u" := [("Repo", "project.m.Repo")] ]} ∅
           Examples.no_class_resolution Examples.no_inference
           "project.u" [("Repo", "project.m.Repo")] (Some {[ "r" := "Repo" ]}) None
           "r" "find_by_id" "Repo" "Method");
    try reflexivity.
  - left. discriminate.
  - discriminate.
Defined.

(** Module [project.u] has no entry in the import mapping.  The local
    variable [r] is bound to [Repo], [Repo] resolves to [project.m.Repo]
    and [project.m.Repo.find_by_id] is registered, yet the call stays
    unresolved: phase 1 is skipped as a whole. *)
Lemma C4_counterexample :
  let reg : FunctionRegistry.t := [("project.m.Repo.find_by_id", "Method")] in
  let im : gmap string StrDict := ∅ in
  let lvt : option (gmap string string) := Some {[ "r" := "Repo" ]} in
  im !! "project.u" = None
  ∧ lvt_get lvt "r" = Some "Repo"
  ∧ Examples.repo_class_resolution "Repo" "project.u" im reg = Some "project.m.Repo"
  ∧ FunctionRegistry.get reg "project.m.Repo.find_by_id" = Some "Method"
  ∧ _resolve_function_call reg im ∅ Examples.repo_class_resolution
      Examples.no_inference "r.find_by_id" "project.u" lvt None = None.
Proof. by vm_compute. Qed.

(** ** Import distance (C3) *)

Section Distance.

Lemma join_cons2 x y l :
  PyStr.join "." (x :: y :: l) = x +:+ "." +:+ PyStr.join "." (y :: l).
Proof. reflexivity. Qed.

Lemma join_app l k :
  l ≠ [] → k ≠ [] →
  PyStr.join "." (l ++ k) = PyStr.join "." l +:+ "." +:+ PyStr.join "." k.
Proof.
  intros Hl Hk. induction l as [|x l IH]; [done |].
  destruct l as [|y l].
  - destruct k as [|z k]; [done |]. reflexivity.
  - change ((x :: y :: l) ++ k) with (x :: y :: (l ++ k)).
    rewrite !join_cons2. change (y :: l ++ k) with ((y :: l) ++ k).
    rewrite IH by done. by rewrite !append_assoc.
Qed.

Lemma split_join l :
  l ≠ [] → (∀ x, x ∈ l → PyStr.contains "." x = false) →
  PyStr.split dot (PyStr.join "." l) = l.
Proof.
  intros Hl Hfree. induction l as [|x l IH]; [done |].
  destruct l as [|y l].
  - apply (split_no_sep dot). apply Hfree. left.
  - rewrite join_cons2. change ("." +:+ ?s) with (String dot s).
    rewrite split_app_sep, IH; [| done | intros z Hz; apply Hfree; by right].
    rewrite (split_no_sep dot x); [done |]. apply Hfree. left.
Qed.

Lemma removelast_elem {A} (l : list A) x : x ∈ removelast l → x ∈ l.
Proof.
  induction l as [|y l IH]; simpl; [done |].
  destruct l as [|z l]; [by intros ?%elem_of_nil |].
  intros [->|H]%elem_of_cons; [left | right; by apply IH].
Qed.

Lemma removelast_length {A} (l : list A) :
  length (removelast l) = pred (length l).
Proof.
  induction l as [|y l IH]; [done |].
  destruct l as [|z l]; [done |]. simpl in *. by rewrite IH.
Qed.

(** [common_prefix_len] is the length of the longest common prefix. *)
Lemma common_prefix_len_take (a b : list string) :
  take (common_prefix_len a b) a = take (common_prefix_len a b) b.
Proof.
  revert b; induction a as [|x a IH]; intros [|y b]; simpl; try done.
  destruct (String.eqb_spec x y) as [->|]; [| done]. simpl. by rewrite IH.
Qed.

Lemma common_prefix_len_max (a b : list string) n :
  n ≤ length a → n ≤ length b → take n a = take n b → n ≤ common_prefix_len a b.
Proof.
  revert a b; induction n as [|n IH]; intros a b Ha Hb Ht; [lia |].
  destruct a as [|x a]; [simpl in Ha; lia |].
  destruct b as [|y b]; [simpl in Hb; lia |].
  simpl in *. injection Ht as -> Ht. rewrite String.eqb_refl.
  apply le_n_S, IH; [lia | lia | done].
Qed.

(** The bonus test of the code, on components: the candidate starts with
    the caller's parent package followed by a dot exactly when the parts of
    that package are a proper prefix of the candidate's parts. *)
Lemma parent_prefix_components candidate_qn caller_module_qn :
  let A := PyStr.split dot candidate_qn in
  let B := PyStr.split dot caller_module_qn in
  2 ≤ length B →
  PyStr.startswith candidate_qn (PyStr.join "." (removelast B) +:+ ".") = true
  ↔ removelast B `prefix_of` A ∧ length (removelast B) < length A.
Proof.
  intros A B HB.
  assert (Hne : removelast B ≠ []).
  { intros E. pose proof (removelast_length B) as HL. rewrite E in HL.
    simpl in HL. lia. }
  assert (Hfree : ∀ x, x ∈ removelast B → PyStr.contains "." x = false).
  { intros x Hx. apply (split_pieces_no_sep dot caller_module_qn).
    by apply removelast_elem. }
  unfold PyStr.startswith. rewrite prefix_iff. split.
  - intros [t Ht]. rewrite append_assoc in Ht.
    change ("." +:+ t) with (String dot t) in Ht.
    assert (HA : A = removelast B ++ PyStr.split dot t).
    { unfold A. rewrite Ht, split_app_sep, split_join; done. }
    split; [by exists (PyStr.split dot t) |].
    rewrite HA, length_app.
    pose proof (split_nonempty dot t).
    destruct (PyStr.split dot t); [done | simpl; lia].
  - intros [[k Hk] Hlen].
    assert (k ≠ []) as Hkne.
    { intros ->. rewrite app_nil_r in Hk. rewrite Hk in Hlen. lia. }
    exists (PyStr.join "." k).
    rewrite <- (join_split candidate_qn). fold A. rewrite Hk.
    rewrite join_app by done. by rewrite !append_assoc.
Qed.

End Distance.

(** C3, as the code has it.  With [A] the parts of the candidate and [B] the
    parts of the caller module, the distance is [max (len A) (len B)] minus
    the length [p] of their longest common prefix, minus 1 exactly when the
    candidate starts with the caller's parent package followed by a dot.
    For a caller of two parts or more that is: exactly when the parts of the
    parent package are a proper prefix of [A], so for direct children and
    for deeper descendants alike. *)
Theorem C3_import_distance (candidate_qn caller_module_qn : string) :
  let A := PyStr.split dot candidate_qn in
  let B := PyStr.split dot caller_module_qn in
  let p := common_prefix_len B A in
  let below_parent :=
    PyStr.startswith candidate_qn (PyStr.join "." (removelast B) +:+ ".") in
  (take p A = take p B
   ∧ ∀ n, n ≤ length A → n ≤ length B → take n A = take n B → n ≤ p)
  ∧ _calculate_import_distance candidate_qn caller_module_qn
    = (Z.of_nat (Nat.max (length A) (length B)) - Z.of_nat p
       - (if below_parent then 1 else 0))%Z
  ∧ (2 ≤ length B →
     below_parent = true
     ↔ removelast B `prefix_of` A ∧ length (removelast B) < length A).
Proof.
  intros A B p below_parent. split; [split |split].
  - symmetry. apply common_prefix_len_take.
  - intros n HA HB Ht. apply common_prefix_len_max; done.
  - unfold _calculate_import_distance. fold A B p below_parent.
    rewrite (Nat.max_comm (length B)). destruct below_parent; lia.
  - apply parent_prefix_components.
Qed.

(** The candidate [p.a.x.f] lies two levels below the caller's parent
    package [p.a]; it is not a direct child of it, and the code still
    subtracts 1: the distance is 1, not [max 4 3 - 2 = 2]. *)
Lemma C3_counterexample :
  let A := PyStr.split dot "p.a.x.f" in
  let B := PyStr.split dot "p.a.m" in
  A = ["p"; "a"; "x"; "f"]
  ∧ removelast B = ["p"; "a"]
  ∧ (∀ x, A ≠ removelast B ++ [x])
  ∧ common_prefix_len B A = 2
  ∧ Nat.max (length A) (length B) = 4
  ∧ _calculate_import_distance "p.a.x.f" "p.a.m" = 1%Z.
Proof.
  vm_compute. repeat split; try reflexivity. intros x. discriminate.
Qed.

(** The candidate [p.a.x.f] of the caller [p.a.m]: the parts of [p.a] are a
    proper prefix of its parts, so the bonus applies. *)
Lemma C3_witness :
  PyStr.startswith "p.a.x.f"
    (PyStr.join "." (removelast (PyStr.split dot "p.a.m")) +:+ ".") = true
  ∧ _calculate_import_distance "p.a.x.f" "p.a.m" = (4 - 2 - 1)%Z.
Proof.
  destruct (C3_import_distance "p.a.x.f" "p.a.m") as (_ & Hd & Hb).
  split; [| exact Hd].
  apply Hb; [vm_compute; lia |].
  split; [by exists ["x"; "f"] | vm_compute; lia].
Defined.

(** ** Facts on syntax trees *)

Section NodeFacts.

(** Induction on a node with the hypothesis for all its children. *)
Fixpoint Node_children_ind (P : Node → Prop)
    (step : ∀ ty txt fs, Forall (fun fc => P (snd fc)) fs → P (mkNode ty txt fs))
    (n : Node) : P n :=
  match n with
  | mkNode ty txt fs =>
      step ty txt fs
        ((fix each (fs : list (option string * Node))
            : Forall (fun fc => P (snd fc)) fs :=
            match fs return Forall (fun fc => P (snd fc)) fs with
            | [] => @List.Forall_nil _ (fun fc => P (snd fc))
            | (f, c) :: fs' =>
                @List.Forall_cons _ (fun fc => P (snd fc)) (f, c) fs'
                  (Node_children_ind P step c) (each fs')
            end) fs)
  end.

Lemma subtree_unfold n : subtree n = n :: flat_map subtree (node_children n).
Proof.
  destruct n as [ty txt fs]. simpl. f_equal. unfold node_children. simpl.
  induction fs as [|[f c] fs IH]; [done |]. simpl. by rewrite IH.
Qed.

Lemma subtree_self n : n ∈ subtree n.
Proof. rewrite subtree_unfold. left. Qed.

Lemma field_lookup_child name fs c :
  field_lookup name fs = Some c → c ∈ List.map snd fs.
Proof.
  induction fs as [|[f d] fs IH]; simpl; [done |].
  case_bool_decide; [intros [= ->]; left | intros Hl; right; by apply IH].
Qed.

Lemma child_by_field_name_child n name c :
  child_by_field_name n name = Some c → c ∈ node_children n.
Proof. apply field_lookup_child. Qed.

Lemma flat_map_split {A B} (f : A → list B) (l : list A) x :
  x ∈ l → ∃ a b, flat_map f l = a ++ f x ++ b.
Proof.
  intros (l1 & l2 & ->)%list_elem_of_split.
  exists (flat_map f l1), (flat_map f l2).
  by rewrite flat_map_app.
Qed.

(** The subtree of a descendant is a segment of the subtree. *)
Lemma subtree_segment root n :
  n ∈ subtree root → ∃ l1 l2, subtree root = l1 ++ subtree n ++ l2.
Proof.
  revert root. apply (Node_children_ind (fun root =>
    n ∈ subtree root → ∃ l1 l2, subtree root = l1 ++ subtree n ++ l2)).
  intros ty txt fs IH Hn. rewrite subtree_unfold in Hn.
  apply elem_of_cons in Hn as [-> | Hn].
  - exists [], []. by rewrite app_nil_r.
  - rewrite (subtree_unfold (mkNode ty txt fs)). unfold node_children in *.
    simpl in *. apply list_elem_of_In, in_flat_map in Hn as (c & Hc & Hn).
    apply list_elem_of_In in Hc, Hn.
    apply list_elem_of_split in Hc as (k1 & k2 & Hk).
    assert (Hc : ∃ f, (f, c) ∈ fs).
    { assert (c ∈ List.map snd fs) as Hin.
      { rewrite Hk. apply elem_of_app. right. left. }
      apply list_elem_of_In, in_map_iff in Hin as ([f c'] & <- & Hin).
      exists f. by apply list_elem_of_In. }
    destruct Hc as [f Hfc].
    rewrite Forall_forall in IH. destruct (IH _ Hfc Hn) as (l1 & l2 & Hl).
    simpl in Hl. rewrite Hk, flat_map_app. simpl. rewrite Hl.
    exists (mkNode ty txt fs :: flat_map subtree k1 ++ l1),
           (l2 ++ flat_map subtree k2).
    simpl. by rewrite <- !app_assoc.
Qed.

End NodeFacts.

(** ** Facts on the emission of relationships *)

Section IngestionFacts.

Context (reg : FunctionRegistry.t) (im : gmap string StrDict)
  (ci : gmap string (list string))
  (rcn : string → string → gmap string StrDict → FunctionRegistry.t → option string)
  (inf : string → string → option (gmap string string) → option string)
  (build : Node → string → gmap string string)
  (lq : LanguageQueries).

Section OneCaller.

Context (caller_qn caller_type module_qn : string)
  (lvt : option (gmap string string)) (ctx : option string).

Local Abbreviation find_nested :=
  (_find_and_process_nested_calls reg im ci rcn inf
     caller_qn caller_type module_qn lvt ctx).
Local Abbreviation nested_in_node :=
  (_process_nested_calls_in_node reg im ci rcn inf
     caller_qn caller_type module_qn lvt ctx).
Local Abbreviation emit :=
  (emit_call reg im ci rcn inf caller_qn caller_type module_qn lvt ctx).
Local Abbreviation ingest_node :=
  (ingest_call_node reg im ci rcn inf caller_qn caller_type module_qn lvt ctx).

(** The equation of [_find_and_process_nested_calls] as the code reads. *)
Lemma find_nested_unfold node :
  find_nested node
  = (if bool_decide (node_type node = "call")
     then nested_in_node node ++ emit node
     else [])
    ++ flat_map find_nested (node_children node).
Proof.
  destruct node as [ty txt fs]. simpl. f_equal.
  - case_bool_decide; [| done]. f_equal.
    unfold _process_nested_calls_in_node, child_by_field_name. simpl.
    induction fs as [|[f c] fs IH]; [done |]. simpl.
    by case_bool_decide.
  - unfold node_children. simpl.
    induction fs as [|[f c] fs IH]; [done |]. simpl. by rewrite IH.
Qed.

(** What a call node emits for itself. *)
Lemma emit_resolved call_node call_name callee :
  _get_call_target_name call_node = Some call_name →
  call_name ≠ "" →
  resolve reg im ci rcn inf module_qn lvt ctx call_name = Some callee →
  emit call_node = [calls_edge caller_type caller_qn callee].
Proof.
  intros Hname Hne Hres. unfold emit_call.
  by rewrite Hname, (truthy_ne _ Hne), Hres.
Qed.

Lemma emit_unresolved call_node call_name :
  _get_call_target_name call_node = Some call_name →
  resolve reg im ci rcn inf module_qn lvt ctx call_name = None →
  emit call_node = [].
Proof.
  intros Hname Hres. unfold emit_call. rewrite Hname, Hres.
  by destruct (PyStr.truthy call_name).
Qed.

(** The source of an emitted relationship is the caller and its target is
    registered. *)
Lemma emit_registered call_node r :
  r ∈ emit call_node →
  ∃ callee, r = calls_edge caller_type caller_qn callee ∧ registered reg callee.
Proof.
  unfold emit_call.
  destruct (_get_call_target_name call_node) as [call_name|];
    [| by intros ?%elem_of_nil].
  destruct (PyStr.truthy call_name); [| by intros ?%elem_of_nil].
  destruct (resolve _ _ _ _ _ _ _ _ call_name) as [callee|] eqn:E;
    [| by intros ?%elem_of_nil].
  intros ->%list_elem_of_singleton. exists callee. split; [done |].
  by eapply resolve_registered.
Qed.

Lemma find_nested_registered node r :
  r ∈ find_nested node →
  ∃ callee, r = calls_edge caller_type caller_qn callee ∧ registered reg callee.
Proof.
  revert node. apply (Node_children_ind (fun node =>
    r ∈ find_nested node →
    ∃ callee, r = calls_edge caller_type caller_qn callee ∧ registered reg callee)).
  intros ty txt fs IH. rewrite find_nested_unfold.
  intros [Hown | Hkids]%elem_of_app.
  - case_bool_decide; [| by apply elem_of_nil in Hown].
    apply elem_of_app in Hown as [Hn | He]; [| by apply emit_registered in He].
    unfold _process_nested_calls_in_node in Hn.
    destruct (child_by_field_name _ "function") as [c|] eqn:Ec;
      [| by apply elem_of_nil in Hn].
    case_bool_decide; [| by apply elem_of_nil in Hn].
    apply field_lookup_child, list_elem_of_In, in_map_iff in Ec
      as ([f c'] & Hc & Hin). simpl in Hc. subst c'.
    rewrite Forall_forall in IH. apply (IH (f, c)); [| done].
    by apply list_elem_of_In.
  - apply list_elem_of_In, in_flat_map in Hkids as (c & Hc & Hr).
    unfold node_children in Hc. simpl in Hc.
    apply in_map_iff in Hc as ([f c'] & Hc & Hin). simpl in Hc. subst c'.
    rewrite Forall_forall in IH. apply (IH (f, c)).
    + by apply list_elem_of_In.
    + by apply list_elem_of_In.
Qed.

Lemma ingest_node_registered call_node r :
  r ∈ ingest_node call_node →
  ∃ callee, r = calls_edge caller_type caller_qn callee ∧ registered reg callee.
Proof.
  unfold ingest_call_node. intros [Hn | He]%elem_of_app;
    [| by apply emit_registered in He].
  unfold _process_nested_calls_in_node in Hn.
  destruct (child_by_field_name _ "function") as [c|];
    [| by apply elem_of_nil in Hn].
  case_bool_decide; [| by apply elem_of_nil in Hn].
  by apply find_nested_registered in Hn.
Qed.

(** The descent from a node reaches every call node below it. *)
Lemma find_nested_reaches node inner :
  inner ∈ subtree node → node_type inner = "call" →
  ∃ a b, find_nested node = a ++ emit inner ++ b.
Proof.
  intros Hin Hty. revert node Hin. apply (Node_children_ind (fun node =>
    inner ∈ subtree node → ∃ a b, find_nested node = a ++ emit inner ++ b)).
  intros ty txt fs IH Hin. rewrite find_nested_unfold.
  rewrite subtree_unfold in Hin. apply elem_of_cons in Hin as [-> | Hin].
  - rewrite bool_decide_eq_true_2 by done.
    exists (nested_in_node (mkNode ty txt fs)),
           (flat_map find_nested (node_children (mkNode ty txt fs))).
    by rewrite <- !app_assoc.
  - apply list_elem_of_In, in_flat_map in Hin as (c & Hc & Hin).
    apply list_elem_of_In in Hin.
    pose proof Hc as Hc'. unfold node_children in Hc'. simpl in Hc'.
    apply in_map_iff in Hc' as ([f c'] & Heq & Hfc). simpl in Heq. subst c'.
    rewrite Forall_forall in IH.
    destruct (IH (f, c) ltac:(by apply list_elem_of_In) Hin) as (a & b & Hab).
    simpl in Hab.
    destruct (flat_map_split find_nested (node_children (mkNode ty txt fs)) c)
      as (a' & b' & Hfm); [by apply list_elem_of_In |].
    rewrite Hfm, Hab.
    set (own := if bool_decide (node_type (mkNode ty txt fs) = "call")
                then nested_in_node (mkNode ty txt fs) ++ emit (mkNode ty txt fs)
                else []).
    exists (own ++ a' ++ a), (b ++ b'). by rewrite <- !app_assoc.
Qed.

End OneCaller.

End IngestionFacts.

(** ** Unresolved calls are dropped (C8) *)

(** C8. When the resolver returns [None] for the target of a captured call
    node, [_ingest_function_calls] asserts no relationship for that call
    site, and what it asserts for the call sites before and after it is
    what it asserts for them anyway: the output is the output for the call
    nodes before, the relationships of the nested descent of the node, and
    the output for the call nodes after. *)
Theorem C8_unresolved_call_is_dropped
    (reg : FunctionRegistry.t) (im : gmap string StrDict)
    (ci : gmap string (list string))
    (rcn : string → string → gmap string StrDict → FunctionRegistry.t → option string)
    (inf : string → string → option (gmap string string) → option string)
    (build : Node → string → gmap string string) (lq : LanguageQueries)
    (caller_node : Node) (caller_qn caller_type module_qn : string)
    (ctx : option string)
    (calls_query : Query) (before after : list Node) (call_node : Node)
    (call_name : string) :
  let lvt := Some (build caller_node module_qn) in
  let ingest_node :=
    ingest_call_node reg im ci rcn inf caller_qn caller_type module_qn lvt ctx in
  calls lq = Some calls_query →
  captures calls_query caller_node = before ++ call_node :: after →
  _get_call_target_name call_node = Some call_name →
  _resolve_function_call reg im ci rcn inf call_name module_qn lvt ctx = None →
  emit_call reg im ci rcn inf caller_qn caller_type module_qn lvt ctx call_node = []
  ∧ _ingest_function_calls reg im ci rcn inf build lq
      caller_node caller_qn caller_type module_qn ctx
    = flat_map ingest_node before
      ++ _process_nested_calls_in_node reg im ci rcn inf
           caller_qn caller_type module_qn lvt ctx call_node
      ++ flat_map ingest_node after.
Proof.
  intros lvt ingest_node Hq Hcap Hname Hres.
  assert (Hemit : emit_call reg im ci rcn inf caller_qn caller_type module_qn
                    lvt ctx call_node = []).
  { by apply (emit_unresolved _ _ _ _ _ _ _ _ _ _ call_node call_name). }
  split; [exact Hemit |].
  unfold _ingest_function_calls. rewrite Hq. fold lvt. rewrite Hcap.
  rewrite flat_map_app. simpl. fold ingest_node.
  unfold ingest_node at 2, ingest_call_node. rewrite Hemit, app_nil_r.
  reflexivity.
Qed.

(** In [def h(): unknown(); f()] the call [unknown()] is dropped and the
    call [f()] after it is asserted. *)
Lemma C8_witness :
  _ingest_function_calls Examples.two_calls_registry ∅ ∅
    Examples.no_class_resolution Examples.no_inference Examples.no_local_types
    Examples.python_queries Examples.two_calls_function
    "proj.mod.h" "Function" "proj.mod" None
  = [calls_edge "Function" "proj.mod.h" ("Function", "proj.mod.f")].
Proof.
  destruct (C8_unresolved_call_is_dropped Examples.two_calls_registry ∅ ∅
              Examples.no_class_resolution Examples.no_inference
              Examples.no_local_types Examples.python_queries
              Examples.two_calls_function "proj.mod.h" "Function" "proj.mod" None
              ["call"] [] [Examples.known_call] Examples.unknown_call "unknown")
    as [_ Hout]; [reflexivity | reflexivity | reflexivity | reflexivity |].
  rewrite Hout. reflexivity.
Defined.

(** ** Nested calls are asserted twice (C10) *)

(** C10. Let [outer] be a captured call node of the caller whose "function"
    child is an attribute expression, and [inner] a node of type "call"
    inside that expression, captured by the calls query as well, whose
    target resolves to [callee].  Then one run of [_ingest_function_calls]
    asserts the relationship from the caller to [callee] at two places of
    its output at least: in the nested descent of [outer], and for [inner]
    as a capture of its own. *)
Theorem C10_nested_call_emitted_twice
    (reg : FunctionRegistry.t) (im : gmap string StrDict)
    (ci : gmap string (list string))
    (rcn : string → string → gmap string StrDict → FunctionRegistry.t → option string)
    (inf : string → string → option (gmap string string) → option string)
    (build : Node → string → gmap string string) (lq : LanguageQueries)
    (caller_node : Node) (caller_qn caller_type module_qn : string)
    (ctx : option string)
    (calls_query : Query) (outer func_child inner : Node)
    (call_name : string) (callee : Callee) :
  calls lq = Some calls_query →
  outer ∈ captures calls_query caller_node →
  child_by_field_name outer "function" = Some func_child →
  node_type func_child = "attribute" →
  inner ∈ subtree func_child →
  node_type inner = "call" →
  "call" ∈ calls_query →
  _get_call_target_name inner = Some call_name →
  call_name ≠ "" →
  _resolve_function_call reg im ci rcn inf call_name module_qn
    (Some (build caller_node module_qn)) ctx = Some callee →
  ∃ l1 l2 l3,
    _ingest_function_calls reg im ci rcn inf build lq
      caller_node caller_qn caller_type module_qn ctx
    = l1 ++ calls_edge caller_type caller_qn callee
         :: l2 ++ calls_edge caller_type caller_qn callee :: l3.
Proof.
  intros Hq Houter Hfield Hattr Hinner Hcall Hcaptured Hname Hne Hres.
  set (lvt := Some (build caller_node module_qn)) in *.
  set (ingest_node :=
         ingest_call_node reg im ci rcn inf caller_qn caller_type module_qn lvt ctx).
  set (edge := calls_edge caller_type caller_qn callee).
  assert (Hemit : emit_call reg im ci rcn inf caller_qn caller_type module_qn
                    lvt ctx inner = [edge]).
  { by apply (emit_resolved _ _ _ _ _ _ _ _ _ _ inner call_name callee). }
  (* the two nodes in the subtree of the caller, [outer] first *)
  apply list_elem_of_In, filter_In in Houter as [Houter Houter_q].
  apply list_elem_of_In, subtree_segment in Houter as (s1 & s2 & Hs).
  rewrite (subtree_unfold outer) in Hs.
  destruct (flat_map_split subtree (node_children outer) func_child)
    as (m1 & m2 & Hm); [by eapply child_by_field_name_child |].
  apply list_elem_of_split in Hinner as (k1 & k2 & Hk).
  rewrite Hm, Hk in Hs.
  assert (Hsub : subtree caller_node
                 = (s1 ++ [outer]) ++ (m1 ++ k1) ++ inner :: (k2 ++ m2 ++ s2)).
  { rewrite Hs. simpl. rewrite <- ?app_assoc. simpl. by rewrite <- ?app_assoc. }
  assert (Hinner_q : type_in calls_query inner = true).
  { unfold type_in. rewrite Hcall. by apply bool_decide_eq_true_2. }
  (* the output, call node by call node *)
  unfold _ingest_function_calls. rewrite Hq. fold lvt ingest_node.
  unfold captures. rewrite Hsub.
  rewrite !List.filter_app. simpl. rewrite Houter_q, Hinner_q.
  rewrite !flat_map_app. simpl.
  (* [outer]: its nested descent reaches [inner] *)
  assert (Hdescent : ∃ a b, ingest_node outer = a ++ edge :: b).
  { unfold ingest_node, ingest_call_node, _process_nested_calls_in_node.
    rewrite Hfield, bool_decide_eq_true_2 by done.
    destruct (find_nested_reaches reg im ci rcn inf caller_qn caller_type
                module_qn lvt ctx func_child inner) as (a & b & Hab).
    { rewrite Hk. apply elem_of_app. right. left. }
    { done. }
    rewrite Hab, Hemit. exists a. eexists. rewrite <- ?app_assoc. reflexivity. }
  destruct Hdescent as (a & b & ->).
  (* [inner] as a capture of its own *)
  assert (Hown : ∃ n, ingest_node inner = n ++ [edge]).
  { unfold ingest_node, ingest_call_node. rewrite Hemit. by eexists. }
  destruct Hown as (n & ->).
  exists (flat_map ingest_node (List.filter (type_in calls_query) s1) ++ a),
    (b ++ (flat_map ingest_node (List.filter (type_in calls_query) m1)
           ++ flat_map ingest_node (List.filter (type_in calls_query) k1)) ++ n),
    (flat_map ingest_node (List.filter (type_in calls_query) (k2 ++ m2 ++ s2))).
  rewrite app_nil_r, <- ?app_assoc. simpl. by rewrite <- ?app_assoc.
Qed.

(** In [def g(): a.b().c()] the call [a.b()] sits in the callee of the outer
    call; the relationship to [proj.mod.a.b] is asserted twice. *)
Lemma C10_witness :
  ∃ l1 l2 l3,
    _ingest_function_calls Examples.chain_registry ∅ ∅
      Examples.no_class_resolution Examples.no_inference Examples.no_local_types
      Examples.python_queries Examples.chain_function
      "proj.mod.g" "Function" "proj.mod" None
    = l1 ++ calls_edge "Function" "proj.mod.g" ("Method", "proj.mod.a.b")
         :: l2 ++ calls_edge "Function" "proj.mod.g" ("Method", "proj.mod.a.b")
         :: l3.
Proof.
  apply (C10_nested_call_emitted_twice Examples.chain_registry ∅ ∅
           Examples.no_class_resolution Examples.no_inference
           Examples.no_local_types Examples.python_queries
           Examples.chain_function "proj.mod.g" "Function" "proj.mod" None
           ["call"] Examples.outer_call
           (Examples.attribute "a.b().c" Examples.inner_call (Examples.ident "c"))
           Examples.inner_call "a.b" ("Method", "proj.mod.a.b")).
  - reflexivity.
  - vm_compute. left.
  - reflexivity.
  - reflexivity.
  - vm_compute. right. left.
  - reflexivity.
  - left.
  - reflexivity.
  - discriminate.
  - reflexivity.
Defined.

(** The output of that run: the same relationship, twice. *)
Lemma chain_function_output :
  _ingest_function_calls Examples.chain_registry ∅ ∅
    Examples.no_class_resolution Examples.no_inference Examples.no_local_types
    Examples.python_queries Examples.chain_function
    "proj.mod.g" "Function" "proj.mod" None
  = [calls_edge "Function" "proj.mod.g" ("Method", "proj.mod.a.b");
     calls_edge "Function" "proj.mod.g" ("Method", "proj.mod.a.b")].
Proof. reflexivity. Qed.

(** ** Sources and targets of the relationships (C1, C5) *)

Section Emitted.

Context (reg : FunctionRegistry.t) (im : gmap string StrDict)
  (ci : gmap string (list string))
  (rcn : string → string → gmap string StrDict → FunctionRegistry.t → option string)
  (inf : string → string → option (gmap string string) → option string)
  (build : Node → string → gmap string string)
  (lq : LanguageQueries).

Lemma ingest_function_calls_registered
    caller_node caller_qn caller_type module_qn ctx r :
  r ∈ _ingest_function_calls reg im ci rcn inf build lq
        caller_node caller_qn caller_type module_qn ctx →
  ∃ callee, r = calls_edge caller_type caller_qn callee ∧ registered reg callee.
Proof.
  unfold _ingest_function_calls.
  destruct (calls lq) as [calls_query|]; [| by intros ?%elem_of_nil].
  intros (call_node & _ & Hr)%list_elem_of_In%in_flat_map.
  apply list_elem_of_In in Hr. by apply ingest_node_registered in Hr.
Qed.

Lemma process_calls_registered root_node module_qn r :
  r ∈ process_calls reg im ci rcn inf build lq root_node module_qn →
  ∃ caller_type caller_qn callee,
    r = calls_edge caller_type caller_qn callee ∧ registered reg callee.
Proof.
  unfold process_calls. intros [Hf | Hc]%elem_of_app.
  - apply list_elem_of_In, in_flat_map in Hf as ([func_node anc] & _ & Hr).
    apply list_elem_of_In in Hr. unfold process_function_node in Hr.
    destruct (_is_method lq anc); [by apply elem_of_nil in Hr |].
    destruct (declared_name func_node) as [func_name|];
      [| by apply elem_of_nil in Hr].
    destruct (_build_nested_qualified_name lq anc module_qn func_name)
      as [func_qn|]; [| by apply elem_of_nil in Hr].
    destruct (PyStr.truthy func_qn); [| by apply elem_of_nil in Hr].
    apply ingest_function_calls_registered in Hr. eauto.
  - apply list_elem_of_In, in_flat_map in Hc as (class_node & _ & Hr).
    apply list_elem_of_In in Hr. unfold process_class_node in Hr.
    destruct (declared_name class_node) as [class_name|];
      [| by apply elem_of_nil in Hr].
    destruct (child_by_field_name class_node "body") as [body_node|];
      [| by apply elem_of_nil in Hr].
    apply list_elem_of_In, in_flat_map in Hr as (method_node & _ & Hr).
    apply list_elem_of_In in Hr. unfold process_method_node in Hr.
    destruct (declared_name method_node) as [method_name|];
      [| by apply elem_of_nil in Hr].
    apply ingest_function_calls_registered in Hr. eauto.
Qed.

End Emitted.

(** The targets.  Every relationship asserted by [_ingest_function_calls]
    is a CALLS relationship from the caller it was given to a callee that is
    a key of the Function Registry, bound to the kind asserted; the same
    holds for the targets of all relationships of the two passes over a
    file. *)
Lemma calls_edges_have_registered_targets
    (reg : FunctionRegistry.t) (im : gmap string StrDict)
    (ci : gmap string (list string))
    (rcn : string → string → gmap string StrDict → FunctionRegistry.t → option string)
    (inf : string → string → option (gmap string string) → option string)
    (build : Node → string → gmap string string) (lq : LanguageQueries)
    (node : Node) (caller_qn caller_type module_qn : string)
    (ctx : option string) (r : Relationship) :
  r ∈ _ingest_function_calls reg im ci rcn inf build lq
        node caller_qn caller_type module_qn ctx
  ∨ r ∈ process_calls reg im ci rcn inf build lq node module_qn →
  (∃ src_type src_qn callee,
     r = calls_edge src_type src_qn callee
     ∧ FunctionRegistry.get reg (rel_dst_qn r) = Some (fst callee))
  ∧ (r ∈ _ingest_function_calls reg im ci rcn inf build lq
           node caller_qn caller_type module_qn ctx →
     rel_src_qn r = caller_qn).
Proof.
  intros H. split.
  - destruct H as [H | H].
    + apply ingest_function_calls_registered in H as (callee & -> & Hreg).
      by exists caller_type, caller_qn, callee.
    + apply process_calls_registered in H
        as (src_type & src_qn & callee & -> & Hreg).
      by exists src_type, src_qn, callee.
  - intros (callee & -> & _)%ingest_function_calls_registered. reflexivity.
Qed.

(** The relationships of the module with the function nested in a method:
    their targets are registered. *)
Lemma calls_edges_have_registered_targets_example :
  let r := calls_edge "Method" "proj.mod.C.m" ("Function", "proj.mod.f") in
  (∃ src_type src_qn callee,
     r = calls_edge src_type src_qn callee
     ∧ FunctionRegistry.get Examples.nested_registry (rel_dst_qn r)
       = Some (fst callee)).
Proof.
  intros r.
  apply (calls_edges_have_registered_targets Examples.nested_registry ∅ ∅
           Examples.no_class_resolution Examples.no_inference
           Examples.no_local_types Examples.python_queries
           Examples.nested_module "proj.mod" "Function" "proj.mod" None r).
  right. vm_compute. left.
Defined.

(** C1 at the module with a function nested in a method.  The two passes
    over the file assert two CALLS relationships.  Both targets are keys of
    the Function Registry.  The source of the first, [proj.mod.C.m], is a
    key as well; the source of the second, [proj.mod.C.inner], is not: the
    registry holds the nested function under [proj.mod.C.m.inner], the name
    that extends its enclosing method, and the class pass names it as a
    method of [C]. *)
Lemma C1_source_of_nested_function_not_registered :
  let rels :=
    process_calls Examples.nested_registry ∅ ∅
      Examples.no_class_resolution Examples.no_inference
      Examples.no_local_types Examples.python_queries
      Examples.nested_module "proj.mod" in
  rels = [calls_edge "Method" "proj.mod.C.m" ("Function", "proj.mod.f");
          calls_edge "Method" "proj.mod.C.inner" ("Function", "proj.mod.f")]
  ∧ (FunctionRegistry.get Examples.nested_registry ∘ rel_dst_qn) <$> rels
    = [Some "Function"; Some "Function"]
  ∧ (FunctionRegistry.get Examples.nested_registry ∘ rel_src_qn) <$> rels
    = [Some "Method"; None]
  ∧ FunctionRegistry.get Examples.nested_registry "proj.mod.C.m.inner"
    = Some "Function".
Proof. by vm_compute. Qed.

(** C5 at the module with a function nested in a method.  The function pass
    skips [inner] (it has a class among its ancestors); the class pass runs
    it as a method of [C] under the name [proj.mod.C.inner], which leaves
    out the enclosing method [m]: the name does not extend
    [proj.mod.C.m]. *)
Lemma C5_function_nested_in_method :
  _process_calls_in_functions Examples.nested_registry ∅ ∅
    Examples.no_class_resolution Examples.no_inference
    Examples.no_local_types Examples.python_queries
    Examples.nested_module "proj.mod" = []
  ∧ _process_calls_in_classes Examples.nested_registry ∅ ∅
      Examples.no_class_resolution Examples.no_inference
      Examples.no_local_types Examples.python_queries
      Examples.nested_module "proj.mod"
    = [calls_edge "Method" "proj.mod.C.m" ("Function", "proj.mod.f");
       calls_edge "Method" "proj.mod.C.inner" ("Function", "proj.mod.f")]
  ∧ PyStr.startswith "proj.mod.C.inner" "proj.mod.C.m." = false.
Proof. by vm_compute. Qed.

(** For functions nested in functions only, [_build_nested_qualified_name]
    does give the names of the enclosing functions in source order. *)
Lemma nested_in_functions_only :
  let module_node := mkNode "module" None [] in
  let outer := Examples.function_def "outer" [] in
  let mid := Examples.function_def "mid" [] in
  let block := mkNode "block" None [] in
  _build_nested_qualified_name Examples.python_queries
    [block; mid; block; outer; module_node] "proj.mod" "leaf"
  = Some "proj.mod.outer.mid.leaf".
Proof. reflexivity. Qed.

(** ** The inheritance walk (C6, C7) *)

Section WalkFacts.

Context (reg : FunctionRegistry.t) (ci : gmap string (list string)).

Local Abbreviation U := (all_parents ci).

Lemma enqueue_unvisited_fresh gps queue visited :
  enqueue_unvisited gps queue visited
  = (queue ++ fresh gps visited, list_to_set (fresh gps visited) ∪ visited).
Proof.
  revert queue visited. induction gps as [|g gps IH]; intros queue visited; simpl.
  - rewrite app_nil_r. f_equal. set_solver.
  - destruct (decide (g ∈ visited)); [apply IH |].
    rewrite IH, <- app_assoc. simpl. f_equal. set_solver.
Qed.

Lemma fresh_elem gps visited x :
  x ∈ fresh gps visited → x ∈ gps ∧ x ∉ visited.
Proof.
  revert visited. induction gps as [|g gps IH]; intros visited; simpl.
  - by intros ?%elem_of_nil.
  - destruct (decide (g ∈ visited)).
    + intros [? ?]%IH. split; [by right | done].
    + intros [-> | [? ?]%IH]%elem_of_cons; [split; [left | done] |].
      split; [by right | set_solver].
Qed.

Lemma fresh_covers gps visited x :
  x ∈ gps → x ∈ visited ∨ x ∈ fresh gps visited.
Proof.
  revert visited. induction gps as [|g gps IH]; intros visited; simpl.
  - by intros ?%elem_of_nil.
  - intros [-> | Hx]%elem_of_cons.
    + destruct (decide (g ∈ visited)); [by left | right; left].
    + destruct (decide (g ∈ visited)); [by apply IH |].
      destruct (IH ({[g]} ∪ visited) Hx) as [Hv | Hf]; [| right; by right].
      apply elem_of_union in Hv as [->%elem_of_singleton | Hv];
        [right; left | by left].
Qed.

Lemma parents_in_universe p gps g :
  ci !! p = Some gps → g ∈ gps → g ∈ U.
Proof.
  intros Hp Hg. unfold all_parents. apply elem_of_union_list.
  exists (list_to_set gps). split; [| by apply elem_of_list_to_set].
  apply list_elem_of_In, in_map_iff. exists (p, gps). split; [done |].
  apply list_elem_of_In. by apply elem_of_map_to_list.
Qed.

(** Appending the unvisited parents does not raise the measure of the loop:
    each of them leaves the classes still to visit. *)
Lemma fresh_measure gps visited :
  (∀ g, g ∈ gps → g ∈ U) →
  size (U ∖ (list_to_set (fresh gps visited) ∪ visited))
  + length (fresh gps visited) ≤ size (U ∖ visited).
Proof.
  revert visited. induction gps as [|g gps IH]; intros visited HU; simpl.
  - replace (U ∖ (∅ ∪ visited)) with (U ∖ visited) by set_solver. lia.
  - assert (HU' : ∀ x, x ∈ gps → x ∈ U) by (intros x Hx; apply HU; by right).
    destruct (decide (g ∈ visited)); [by apply IH |].
    simpl. specialize (IH ({[g]} ∪ visited) HU').
    replace (U ∖ (({[g]} ∪ list_to_set (fresh gps ({[g]} ∪ visited))) ∪ visited))
      with (U ∖ (list_to_set (fresh gps ({[g]} ∪ visited)) ∪ ({[g]} ∪ visited)))
      by set_solver.
    assert (Hg : size (U ∖ visited) = S (size (U ∖ ({[g]} ∪ visited)))).
    { replace (U ∖ visited) with ({[g]} ∪ U ∖ ({[g]} ∪ visited)).
      - rewrite size_union by set_solver. by rewrite size_singleton.
      - apply set_eq. intros x. rewrite elem_of_union, !elem_of_difference,
          elem_of_union, elem_of_singleton.
        split.
        + intros [-> | [? ?]]; [split; [apply HU; left | done] | tauto].
        + intros [? ?]. destruct (decide (x = g)); [by left | right; tauto]. }
    lia.
Qed.

(** The measure of the loop: classes in the queue plus classes that can
    still enter it. *)
Lemma walk_terminates fuel m queue visited :
  length queue + size (U ∖ visited) < fuel →
  inheritance_walk reg ci fuel m queue visited ≠ OutOfFuel.
Proof.
  revert queue visited.
  induction fuel as [|fuel IH]; intros queue visited Hfuel; [lia |].
  simpl. destruct queue as [|p queue]; [done |].
  destruct (FunctionRegistry.get reg _); [done |].
  destruct (ci !! p) as [gps|] eqn:Hp.
  - rewrite enqueue_unvisited_fresh. apply IH.
    pose proof (fresh_measure gps visited
                  (fun g => parents_in_universe p gps g Hp)).
    rewrite length_app. simpl in Hfuel. lia.
  - apply IH. simpl in Hfuel. lia.
Qed.

(** More fuel does not change a result. *)
Lemma walk_fuel_mono fuel fuel' m queue visited :
  inheritance_walk reg ci fuel m queue visited ≠ OutOfFuel →
  fuel ≤ fuel' →
  inheritance_walk reg ci fuel' m queue visited
  = inheritance_walk reg ci fuel m queue visited.
Proof.
  revert fuel' queue visited.
  induction fuel as [|fuel IH]; intros fuel' queue visited Hres Hle; [done |].
  destruct fuel' as [|fuel']; [lia |].
  simpl in *. destruct queue as [|p queue]; [done |].
  destruct (FunctionRegistry.get reg _); [done |].
  destruct (ci !! p) as [gps|].
  - destruct (enqueue_unvisited gps queue visited) as [q v].
    apply IH; [done | lia].
  - apply IH; [done | lia].
Qed.

Lemma first_hit_app m l1 l2 :
  first_hit reg m (l1 ++ l2)
  = match first_hit reg m l1 with
    | Some hit => Some hit
    | None => first_hit reg m l2
    end.
Proof.
  induction l1 as [|p l1 IH]; simpl; [done |].
  by destruct (registry_hit reg _).
Qed.

Lemma first_hit_misses m l :
  Forall (misses reg m) l → first_hit reg m l = None.
Proof.
  induction 1 as [|p l Hp _ IH]; simpl; [done |].
  unfold registry_hit. by rewrite Hp.
Qed.

Lemma first_hit_found m pre p post kind :
  Forall (misses reg m) pre →
  FunctionRegistry.get reg (p +:+ "." +:+ m) = Some kind →
  first_hit reg m (pre ++ p :: post) = Some (kind, p +:+ "." +:+ m).
Proof.
  intros Hpre Hp. rewrite first_hit_app, (first_hit_misses _ _ Hpre). simpl.
  unfold registry_hit. by rewrite Hp.
Qed.

(** Either every class of a list misses, or there is a first one that
    hits. *)
Lemma hit_or_miss m l :
  Forall (misses reg m) l
  ∨ ∃ pre p post kind,
      l = pre ++ p :: post ∧ Forall (misses reg m) pre
      ∧ FunctionRegistry.get reg (p +:+ "." +:+ m) = Some kind.
Proof.
  induction l as [|x l IH]; [by left |].
  destruct (FunctionRegistry.get reg (x +:+ "." +:+ m)) as [kind|] eqn:Hx.
  - right. exists [], x, l, kind. by repeat split.
  - destruct IH as [IH | (pre & p & post & kind & -> & Hpre & Hp)].
    + left. by constructor.
    + right. exists (x :: pre), p, post, kind. repeat split; [| done].
      by constructor.
Qed.

(** The loop reaches the first class of the queue that hits. *)
Lemma walk_finds fuel m pre p post visited kind :
  Forall (misses reg m) pre →
  FunctionRegistry.get reg (p +:+ "." +:+ m) = Some kind →
  length pre < fuel →
  inheritance_walk reg ci fuel m (pre ++ p :: post) visited
  = Found kind (p +:+ "." +:+ m).
Proof.
  intros Hpre Hp. revert fuel post visited.
  induction Hpre as [|x pre Hx _ IH]; intros fuel post visited Hfuel.
  - destruct fuel as [|fuel]; [simpl in Hfuel; lia |]. simpl. by rewrite Hp.
  - destruct fuel as [|fuel]; [simpl in Hfuel; lia |].
    simpl. unfold misses in Hx. rewrite Hx.
    destruct (ci !! x) as [gps|].
    + rewrite enqueue_unvisited_fresh, <- app_assoc. simpl.
      apply IH. simpl in Hfuel. lia.
    + apply IH. simpl in Hfuel. lia.
Qed.

(** The loop works through a level of misses and is left with the classes
    queued behind it followed by the next level. *)
Lemma walk_through_level fuel m level queued visited :
  Forall (misses reg m) level →
  inheritance_walk reg ci (length level + fuel) m (level ++ queued) visited
  = inheritance_walk reg ci fuel m
      (queued ++ fst (next_level ci level visited))
      (snd (next_level ci level visited)).
Proof.
  intros Hlevel. revert queued visited.
  induction Hlevel as [|p level Hp _ IH]; intros queued visited.
  - simpl. by rewrite app_nil_r.
  - simpl. unfold misses in Hp. rewrite Hp.
    destruct (next_level ci level
                (list_to_set (fresh (default [] (ci !! p)) visited) ∪ visited))
      as [rest v'] eqn:Hnext.
    destruct (ci !! p) as [gps|]; simpl in *.
    + rewrite enqueue_unvisited_fresh, <- app_assoc, IH, Hnext. simpl.
      by rewrite <- app_assoc.
    + replace (∅ ∪ visited) with visited in Hnext by set_solver.
      by rewrite IH, Hnext.
Qed.

Lemma next_level_measure level visited :
  size (U ∖ snd (next_level ci level visited))
  + length (fst (next_level ci level visited)) ≤ size (U ∖ visited).
Proof.
  revert visited. induction level as [|p level IH]; intros visited; simpl.
  - lia.
  - set (new := fresh (default [] (ci !! p)) visited).
    specialize (IH (list_to_set new ∪ visited)).
    destruct (next_level ci level (list_to_set new ∪ visited)) as [rest v'].
    simpl in *. rewrite length_app.
    assert (Hnew : size (U ∖ (list_to_set new ∪ visited)) + length new
                   ≤ size (U ∖ visited)).
    { apply fresh_measure. intros g Hg.
      destruct (ci !! p) as [gps|] eqn:Hp; simpl in Hg.
      - by eapply parents_in_universe.
      - by apply elem_of_nil in Hg. }
    lia.
Qed.

Lemma bfs_levels_cons n level visited :
  level ≠ [] →
  bfs_levels ci (S n) level visited
  = level :: bfs_levels ci n (fst (next_level ci level visited))
                             (snd (next_level ci level visited)).
Proof.
  destruct level as [|p level]; [done |]. intros _.
  cbn [bfs_levels]. by destruct (next_level ci (p :: level) visited).
Qed.

Lemma bfs_levels_nil n visited : bfs_levels ci n [] visited = [].
Proof. by destruct n. Qed.

(** With fuel enough, the loop returns the first hit of the traversal by
    levels. *)
Lemma walk_levels m n level visited :
  size (U ∖ visited) < n →
  ∃ fuel0, ∀ fuel, fuel0 ≤ fuel →
    inheritance_walk reg ci fuel m level visited
    = outcome_of (first_hit reg m (concat (bfs_levels ci n level visited))).
Proof.
  revert level visited.
  induction n as [|n IH]; intros level visited Hn; [lia |].
  destruct (decide (level = [])) as [-> | Hne].
  { exists 1. intros [|fuel] Hf; [lia | done]. }
  rewrite bfs_levels_cons by done.
  pose proof (next_level_measure level visited) as Hmeasure.
  destruct (next_level ci level visited) as [next v'] eqn:Hnext. simpl in *.
  rewrite first_hit_app.
  destruct (hit_or_miss m level)
    as [Hmiss | (pre & p & post & kind & Hsplit & Hpre & Hp)].
  - rewrite (first_hit_misses _ _ Hmiss).
    assert (Hthrough : ∀ fuel, length level ≤ fuel →
              inheritance_walk reg ci fuel m level visited
              = inheritance_walk reg ci (fuel - length level) m next v').
    { intros fuel Hf.
      pose proof (walk_through_level (fuel - length level) m level []
                    visited Hmiss) as Hw.
      rewrite app_nil_r, Hnext in Hw. simpl in Hw.
      by replace (length level + (fuel - length level)) with fuel in Hw by lia. }
    destruct (decide (next = [])) as [-> | Hnext_ne].
    + exists (S (length level)). intros fuel Hf.
      rewrite Hthrough, bfs_levels_nil by lia.
      destruct (fuel - length level) as [|f] eqn:Hfl; [lia | done].
    + assert (Hlen : 0 < length next) by (destruct next; [done | simpl; lia]).
      destruct (IH next v') as [fuel0 Hfuel0]; [lia |].
      exists (length level + fuel0). intros fuel Hf.
      rewrite Hthrough by lia. apply Hfuel0. lia.
  - rewrite Hsplit, (first_hit_found _ _ _ _ _ Hpre Hp). simpl.
    exists (S (length pre)). intros fuel Hf.
    apply walk_finds; [done | done | lia].
Qed.

(** *** The traversal by levels visits the ancestors, all of them *)

Lemma next_level_elem level visited x :
  x ∈ fst (next_level ci level visited) →
  (x ∉ visited)
  ∧ ∃ p gps, p ∈ level ∧ ci !! p = Some gps ∧ x ∈ gps.
Proof.
  revert visited. induction level as [|p level IH]; intros visited; simpl.
  - by intros ?%elem_of_nil.
  - specialize (IH (list_to_set (fresh (default [] (ci !! p)) visited) ∪ visited)).
    destruct (next_level ci level _) as [rest v']. simpl in *.
    intros [Hx | Hx]%elem_of_app.
    + apply fresh_elem in Hx as [Hx Hv]. split; [done |].
      destruct (ci !! p) as [gps|] eqn:Hp; simpl in Hx;
        [| by apply elem_of_nil in Hx].
      exists p, gps. split; [left | done].
    + destruct (IH Hx) as (Hv & q & gps & Hq & Hgps & Hin).
      split; [set_solver |]. exists q, gps. split; [by right | done].
Qed.

Lemma next_level_visited level visited x :
  x ∈ snd (next_level ci level visited)
  ↔ x ∈ visited ∨ x ∈ fst (next_level ci level visited).
Proof.
  revert visited. induction level as [|p level IH]; intros visited; simpl.
  - split; [by left | intros [? | ?%elem_of_nil]; done].
  - specialize (IH (list_to_set (fresh (default [] (ci !! p)) visited) ∪ visited)).
    destruct (next_level ci level _) as [rest v']. simpl in *.
    rewrite IH, elem_of_union, elem_of_list_to_set, elem_of_app. tauto.
Qed.

Lemma next_level_covers level visited p gps g :
  p ∈ level → ci !! p = Some gps → g ∈ gps →
  g ∈ snd (next_level ci level visited).
Proof.
  revert visited. induction level as [|q level IH]; intros visited; simpl.
  - by intros ?%elem_of_nil.
  - intros Hp Hgps Hg.
    pose proof (next_level_visited level
      (list_to_set (fresh (default [] (ci !! q)) visited) ∪ visited) g) as Hv.
    specialize (IH (list_to_set (fresh (default [] (ci !! q)) visited) ∪ visited)).
    destruct (next_level ci level _) as [rest v']. simpl in *.
    apply elem_of_cons in Hp as [<- | Hp]; [| by apply IH].
    apply Hv. left. rewrite Hgps. simpl.
    rewrite elem_of_union, elem_of_list_to_set.
    destruct (fresh_covers gps visited g Hg); tauto.
Qed.

Lemma levels_sound class_qn n level visited x :
  (∀ y, y ∈ level → ancestor ci class_qn y) →
  x ∈ concat (bfs_levels ci n level visited) → ancestor ci class_qn x.
Proof.
  revert level visited. induction n as [|n IH]; intros level visited Hlevel.
  - by intros ?%elem_of_nil.
  - destruct (decide (level = [])) as [-> | Hne];
      [by intros ?%elem_of_nil |].
    rewrite bfs_levels_cons by done. simpl.
    intros [Hx | Hx]%elem_of_app; [by apply Hlevel |].
    eapply IH; [| exact Hx].
    intros y (_ & p & gps & Hp & Hgps & Hy)%next_level_elem.
    eapply ancestor_step; [by apply Hlevel | done | done].
Qed.

(** Visited classes and classes of the remaining levels together are closed
    under taking parents. *)
Lemma levels_closed n level visited :
  size (U ∖ visited) < n →
  (∀ x, x ∈ level → x ∈ visited) →
  (∀ x gps g, x ∈ visited → x ∉ level → ci !! x = Some gps → g ∈ gps →
              g ∈ visited) →
  ∀ x gps g,
    x ∈ visited ∨ x ∈ concat (bfs_levels ci n level visited) →
    ci !! x = Some gps → g ∈ gps →
    g ∈ visited ∨ g ∈ concat (bfs_levels ci n level visited).
Proof.
  revert level visited.
  induction n as [|n IH]; intros level visited Hn Hsub Hdone x gps g; [lia |].
  destruct (decide (level = [])) as [-> | Hne].
  { simpl. intros [Hx | Hx]; [| by apply elem_of_nil in Hx].
    intros Hgps Hg. left. eapply Hdone; [done | | done | done].
    by intros ?%elem_of_nil. }
  rewrite bfs_levels_cons by done. simpl.
  pose proof (next_level_measure level visited) as Hmeasure.
  pose proof (next_level_visited level visited) as Hvisited.
  pose proof (next_level_elem level visited) as Helem.
  pose proof (next_level_covers level visited) as Hcovers.
  destruct (next_level ci level visited) as [next v'] eqn:Hnext. simpl in *.
  intros Hx Hgps Hg.
  assert (Hx' : x ∈ visited ∨ x ∈ concat (bfs_levels ci n next v')).
  { destruct Hx as [Hx | [Hx | Hx]%elem_of_app]; [by left | left | by right].
    by apply Hsub. }
  clear Hx.
  (* parents of visited classes are visited after this level *)
  assert (Hv' : ∀ y gps' g', y ∈ visited → ci !! y = Some gps' → g' ∈ gps' →
                             g' ∈ v').
  { intros y gps' g' Hy Hgps' Hg'.
    destruct (decide (y ∈ level)) as [Hin | Hout].
    - by eapply Hcovers.
    - apply Hvisited. left. by eapply Hdone. }
  destruct (decide (next = [])) as [-> | Hnext_ne].
  - rewrite bfs_levels_nil in *. simpl in *.
    destruct Hx' as [Hx | Hx]; [| by apply elem_of_nil in Hx].
    left. apply (Hv' x gps g Hx Hgps) in Hg.
    apply Hvisited in Hg as [? | ?%elem_of_nil]; done.
  - assert (Hlen : 0 < length next) by (destruct next; [done | simpl; lia]).
    assert (Hn' : size (U ∖ v') < n) by lia.
    assert (Hfirst : ∀ y, y ∈ next → y ∈ concat (bfs_levels ci n next v')).
    { intros y Hy. destruct n as [|n']; [lia |].
      rewrite bfs_levels_cons by done. simpl. apply elem_of_app. by left. }
    assert (Hgoal : g ∈ v' ∨ g ∈ concat (bfs_levels ci n next v')).
    { apply (IH next v' Hn') with (x := x) (gps := gps); [| | | done | done].
      - intros y Hy. apply Hvisited. by right.
      - intros y gps' g' Hy Hny Hgps' Hg'.
        apply Hvisited in Hy as [Hy | Hy]; [| done].
        by eapply Hv'.
      - destruct Hx' as [Hx | Hx]; [left; apply Hvisited; by left | by right]. }
    destruct Hgoal as [Hgv | Hgc].
    + apply Hvisited in Hgv as [Hgv | Hgn]; [by left |].
      right. apply elem_of_app. right. by apply Hfirst.
    + right. apply elem_of_app. by right.
Qed.

Lemma measure_top (parents : list string) :
  size (U ∖ list_to_set parents) < S (size U).
Proof.
  assert (size (U ∖ list_to_set parents) ≤ size U); [| lia].
  apply subseteq_size. set_solver.
Qed.

(** The breadth-first order lists the ancestors of the class. *)
Lemma bfs_order_ancestors class_qn a :
  a ∈ bfs_order ci class_qn ↔ ancestor ci class_qn a.
Proof.
  unfold bfs_order. split.
  - apply levels_sound. intros y Hy.
    destruct (ci !! class_qn) as [parents|] eqn:Hc; simpl in Hy;
      [| by apply elem_of_nil in Hy].
    by eapply ancestor_parent.
  - intros Hanc.
    set (parents := default [] (ci !! class_qn)).
    set (order := concat (bfs_levels ci (S (size U)) parents (list_to_set parents))).
    assert (Hfirst : ∀ y, y ∈ parents → y ∈ order).
    { intros y Hy. unfold order. rewrite bfs_levels_cons.
      - simpl. apply elem_of_app. by left.
      - intros E. rewrite E in Hy. by apply elem_of_nil in Hy. }
    assert (Hin : a ∈ (list_to_set parents : gset string) ∨ a ∈ order).
    { induction Hanc as [ps p Hc Hp | b gps g _ IH Hgps Hg].
      - left. apply elem_of_list_to_set. unfold parents. by rewrite Hc.
      - apply (levels_closed (S (size U)) parents (list_to_set parents))
          with (x := b) (gps := gps); [| | | done | done | done].
        + apply measure_top.
        + intros x Hx. by apply elem_of_list_to_set.
        + intros x gps' g' Hx Hnx. by apply elem_of_list_to_set in Hx. }
    destruct Hin as [Hin%elem_of_list_to_set | Hin]; [by apply Hfirst | done].
Qed.

(** *** The walk of the code against the traversal by levels *)

Lemma resolve_inherited_first_hit class_qn m :
  _resolve_inherited_method reg ci class_qn m
  = first_hit reg m (bfs_order ci class_qn).
Proof.
  unfold _resolve_inherited_method, bfs_order.
  destruct (ci !! class_qn) as [parents|] eqn:Hc; [| done].
  cbn [default]. cbv zeta.
  destruct (walk_levels m (S (size U)) parents (list_to_set parents)
              (measure_top parents)) as [fuel0 Hfuel0].
  assert (Hterm : inheritance_walk reg ci (walk_fuel ci parents) m parents
                    (list_to_set parents) ≠ OutOfFuel).
  { apply walk_terminates. unfold walk_fuel.
    pose proof (measure_top parents). lia. }
  rewrite <- (walk_fuel_mono _ (Nat.max fuel0 (walk_fuel ci parents)) _ _ _ Hterm)
    by lia.
  rewrite Hfuel0 by lia.
  by destruct (first_hit reg m _) as [[kind qn]|].
Qed.

End WalkFacts.

Lemma first_hit_none_iff reg m l :
  first_hit reg m l = None ↔ Forall (misses reg m) l.
Proof.
  split; [| apply first_hit_misses].
  induction l as [|p l IH]; simpl; [constructor |].
  unfold registry_hit.
  destruct (FunctionRegistry.get reg (p +:+ "." +:+ m)) eqn:Hp; [done |].
  intros H. constructor; [exact Hp | by apply IH].
Qed.

(** C6. The walk of [_resolve_inherited_method] ends on every inheritance
    table, cyclic or not: with the fuel it is given the loop never stops for
    lack of fuel, and more fuel gives the same outcome.  Its result is the
    first class with [method_name] registered in the breadth-first order of
    the table (the declared parents in order, then their unvisited parents
    in order, level by level); that order lists exactly the ancestors of
    the class; and the result is [None] exactly when no ancestor has the
    method. *)
Theorem C6_inheritance_walk (reg : FunctionRegistry.t)
    (ci : gmap string (list string)) (class_qn method_name : string) :
  (∀ parents, ci !! class_qn = Some parents →
     inheritance_walk reg ci (walk_fuel ci parents) method_name parents
       (list_to_set parents) ≠ OutOfFuel
     ∧ ∀ fuel, walk_fuel ci parents ≤ fuel →
         inheritance_walk reg ci fuel method_name parents (list_to_set parents)
         = inheritance_walk reg ci (walk_fuel ci parents) method_name parents
             (list_to_set parents))
  ∧ _resolve_inherited_method reg ci class_qn method_name
    = first_hit reg method_name (bfs_order ci class_qn)
  ∧ (∀ a, a ∈ bfs_order ci class_qn ↔ ancestor ci class_qn a)
  ∧ (_resolve_inherited_method reg ci class_qn method_name = None
     ↔ ∀ a, ancestor ci class_qn a →
            FunctionRegistry.get reg (a +:+ "." +:+ method_name) = None).
Proof.
  split; [| split; [| split]].
  - intros parents Hc.
    assert (Hterm : inheritance_walk reg ci (walk_fuel ci parents) method_name
                      parents (list_to_set parents) ≠ OutOfFuel).
    { apply walk_terminates. unfold walk_fuel.
      pose proof (measure_top ci parents). lia. }
    split; [exact Hterm |]. intros fuel Hfuel. by apply walk_fuel_mono.
  - apply resolve_inherited_first_hit.
  - apply bfs_order_ancestors.
  - rewrite resolve_inherited_first_hit, first_hit_none_iff, Forall_forall.
    split.
    + intros H a Ha. apply H. by apply bfs_order_ancestors.
    + intros H a Ha. apply H. by apply bfs_order_ancestors.
Qed.

(** A table with the cycle [A -> B -> A]: the walk from [A] visits [B], [C],
    then [A] itself and [D], and finds the method on [D]. *)
Lemma C6_witness :
  let ci : gmap string (list string) :=
    {[ "A" := ["B"; "C"]; "B" := ["A"]; "C" := ["D"]; "D" := [] ]} in
  let reg : FunctionRegistry.t := [("D.m", "Method")] in
  bfs_order ci "A" = ["B"; "C"; "A"; "D"]
  ∧ _resolve_inherited_method reg ci "A" "m" = Some ("Method", "D.m")
  ∧ ancestor ci "A" "A".
Proof.
  intros ci reg.
  destruct (C6_inheritance_walk reg ci "A" "m") as (_ & Hfirst & Hanc & _).
  assert (Horder : bfs_order ci "A" = ["B"; "C"; "A"; "D"]) by by vm_compute.
  split; [exact Horder |]. split.
  - rewrite Hfirst, Horder. reflexivity.
  - apply Hanc. rewrite Horder. right. right. left.
Defined.

(** On a table that is one cycle, with the method nowhere, the walk ends
    with [None]. *)
Lemma walk_on_cycle :
  _resolve_inherited_method [] {[ "X" := ["Y"]; "Y" := ["X"] ]} "X" "m" = None.
Proof. by vm_compute. Qed.

(** ** Super calls (C7) *)

Lemma super_call_name method_name :
  PyStr.startswith ("super()." +:+ method_name) "super()" = true
  ∧ PyStr.after_first dot ("super()." +:+ method_name) = Some method_name.
Proof. split; [| reflexivity]. unfold PyStr.startswith. by cbn. Qed.

(** C7. For a call name ["super()." ++ method_name]: without class context
    the resolution is [None]; in a class whose declared parents include a
    class with [method_name] registered, the resolution is the method of the
    first such parent in declared order, with the kind registered for it. *)
Theorem C7_super_call
    (reg : FunctionRegistry.t) (im : gmap string StrDict)
    (ci : gmap string (list string))
    (rcn : string → string → gmap string StrDict → FunctionRegistry.t → option string)
    (inf : string → string → option (gmap string string) → option string)
    (method_name module_qn : string) (lvt : option (gmap string string)) :
  let call_name := "super()." +:+ method_name in
  _resolve_function_call reg im ci rcn inf call_name module_qn lvt None = None
  ∧ ∀ class_context pre parent post kind,
      class_context ≠ "" →
      ci !! class_context = Some (pre ++ parent :: post) →
      Forall (misses reg method_name) pre →
      FunctionRegistry.get reg (parent +:+ "." +:+ method_name) = Some kind →
      _resolve_function_call reg im ci rcn inf call_name module_qn lvt
        (Some class_context)
      = Some (kind, parent +:+ "." +:+ method_name).
Proof.
  intros call_name.
  destruct (super_call_name method_name) as [Hstart Hafter].
  subst call_name. unfold _resolve_function_call, _resolve_super_call.
  rewrite Hstart, Hafter.
  split; [done |].
  intros class_context pre parent post kind Hne Hc Hpre Hp.
  rewrite (truthy_ne _ Hne), Hc. simpl.
  assert (Hwalk : _resolve_inherited_method reg ci class_context method_name
                  = Some (kind, parent +:+ "." +:+ method_name)).
  { unfold _resolve_inherited_method. rewrite Hc. cbv zeta.
    rewrite (walk_finds reg ci _ method_name pre parent post _ kind Hpre Hp);
      [done |].
    unfold walk_fuel. rewrite length_app. lia. }
  by destruct pre.
Qed.

(** The scenario of the specification: [Car(Vehicle)] in [project.v], with
    [Vehicle.start_engine] registered. *)
Lemma C7_witness :
  let reg : FunctionRegistry.t :=
    [("project.v.Vehicle.start_engine", "Method"); ("project.v.Car.start", "Method")] in
  let ci : gmap string (list string) :=
    {[ "project.v.Car" := ["project.v.Vehicle"] ]} in
  _resolve_function_call reg ∅ ci Examples.no_class_resolution
    Examples.no_inference "super().start_engine" "project.v" None None = None
  ∧ _resolve_function_call reg ∅ ci Examples.no_class_resolution
      Examples.no_inference "super().start_engine" "project.v" None
      (Some "project.v.Car")
    = Some ("Method", "project.v.Vehicle.start_engine").
Proof.
  intros reg ci.
  destruct (C7_super_call reg ∅ ci Examples.no_class_resolution
              Examples.no_inference "start_engine" "project.v" None)
    as [Hnone Hsome].
  split; [exact Hnone |].
  apply (Hsome "project.v.Car" [] "project.v.Vehicle" [] "Method");
    [discriminate | reflexivity | constructor | reflexivity].
Defined.

(** * Further properties of the call processor *)

(** ** More on splitting *)

Section SplitFacts.

Lemma split_snoc stem ext :
  PyStr.contains "." ext = false →
  PyStr.split dot (stem +:+ "." +:+ ext) = PyStr.split dot stem ++ [ext].
Proof.
  intros H. change ("." +:+ ext) with (String dot ext).
  by rewrite split_app_sep, (split_no_sep dot ext H).
Qed.

Lemma removelast_snoc {A} (l : list A) x : removelast (l ++ [x]) = l.
Proof. apply removelast_last. Qed.

Lemma reverse_snoc_cons {A} (l : list A) x :
  l ≠ [] → ∃ y l', reverse (l ++ [x]) = x :: y :: l'.
Proof.
  intros Hl. rewrite reverse_app. simpl.
  destruct (reverse l) as [|y l'] eqn:E.
  - apply (f_equal reverse) in E. rewrite reverse_involutive in E. done.
  - by exists y, l'.
Qed.

(** A text has two pieces or more exactly when it contains a dot. *)
Lemma split_two_iff s :
  2 ≤ length (PyStr.split dot s) ↔ PyStr.contains "." s = true.
Proof.
  split.
  - intros Hlen. destruct (PyStr.contains "." s) eqn:E; [done |].
    rewrite (split_no_sep dot s E) in Hlen. simpl in Hlen. lia.
  - intros (a & b & ->)%(contains_sep_iff dot).
    rewrite split_app_sep, length_app.
    pose proof (split_nonempty dot a). pose proof (split_nonempty dot b).
    destruct (PyStr.split dot a), (PyStr.split dot b); simpl; try done; lia.
Qed.

Lemma truthy_iff s : PyStr.truthy s = true ↔ s ≠ "".
Proof.
  unfold PyStr.truthy. destruct (String.eqb_spec s ""); split; done.
Qed.

End SplitFacts.

(** ** Module names (process_calls_in_file) *)

Lemma with_suffix_empty_snoc dir name :
  with_suffix_empty (dir ++ [name])
  = Some (dir ++ [match split_suffix name with
                  | Some (stem, _) => stem
                  | None => name
                  end]).
Proof.
  unfold with_suffix_empty. rewrite reverse_app, removelast_snoc. reflexivity.
Qed.

Lemma split_suffix_stem_ext stem ext :
  stem ≠ "" → ext ≠ "" → PyStr.contains "." ext = false →
  split_suffix (stem +:+ "." +:+ ext) = Some (stem, ext).
Proof.
  intros Hstem Hext Hdot. unfold split_suffix. rewrite split_snoc by done.
  destruct (reverse_snoc_cons (PyStr.split dot stem) ext) as (y & l' & ->);
    [apply split_nonempty |].
  rewrite removelast_snoc, join_split.
  by rewrite (truthy_ne _ Hstem), (truthy_ne _ Hext).
Qed.

(** X1. A package initializer names the package: for a directory [dir] of
    the repository, the file [dir/__init__.py] gets the module name made of
    the project name and the parts of [dir], and a file [dir/stem.ext]
    (with [stem] not empty and [ext] a non-empty extension without dot)
    other than the initializer gets that name followed by ["." ++ stem]. *)
Theorem X1_package_initializer_names_package
    (project_name : string) (dir : list string) (stem ext : string) :
  stem ≠ "" → ext ≠ "" → PyStr.contains "." ext = false →
  stem +:+ "." +:+ ext ≠ "__init__.py" →
  let package_qn := PyStr.join "." (project_name :: dir) in
  file_module_qn project_name (dir ++ ["__init__.py"]) = Some package_qn
  ∧ file_module_qn project_name (dir ++ [stem +:+ "." +:+ ext])
    = Some (package_qn +:+ "." +:+ stem).
Proof.
  intros Hstem Hext Hdot Hinit package_qn.
  unfold file_module_qn. rewrite !with_suffix_empty_snoc, !last_last.
  rewrite !removelast_snoc, split_suffix_stem_ext by done.
  split; [reflexivity |].
  destruct (String.eqb_spec (stem +:+ "." +:+ ext) "__init__.py"); [done |].
  f_equal. unfold package_qn.
  change (project_name :: dir ++ [stem]) with ((project_name :: dir) ++ [stem]).
  by rewrite join_app.
Qed.

Lemma X1_witness :
  file_module_qn "project" (["a"; "b"] ++ ["__init__.py"]) = Some "project.a.b"
  ∧ file_module_qn "project" (["a"; "b"] ++ ["util" +:+ "." +:+ "py"])
    = Some ("project.a.b" +:+ "." +:+ "util").
Proof.
  apply (X1_package_initializer_names_package "project" ["a"; "b"] "util" "py");
    done.
Defined.

(** ** Bounds of the import distance (_calculate_import_distance) *)

Section DistanceBounds.

Lemma common_prefix_len_le (a b : list string) :
  common_prefix_len a b ≤ length a ∧ common_prefix_len a b ≤ length b.
Proof.
  revert b; induction a as [|x a IH]; intros [|y b]; simpl; try lia.
  destruct (String.eqb x y); [| lia]. destruct (IH b). lia.
Qed.

Lemma common_prefix_len_refl (a : list string) : common_prefix_len a a = length a.
Proof.
  induction a as [|x a IH]; simpl; [done |]. by rewrite String.eqb_refl, IH.
Qed.

Lemma take_removelast {A} (l : list A) : take (pred (length l)) l = removelast l.
Proof.
  induction l as [|x l IH]; [done |].
  destruct l as [|y l]; [done |]. simpl in *. by rewrite IH.
Qed.

Lemma split_inj s t : PyStr.split dot s = PyStr.split dot t → s = t.
Proof.
  intros H. by rewrite <- (join_split s), <- (join_split t), H.
Qed.

End DistanceBounds.

(** X2. The import distance is at least -1 and at most the larger number of
    parts; it is -1 exactly when the candidate is the caller module itself
    and that name has two parts or more.  In every other case the distance
    is not negative. *)
Theorem X2_import_distance_bounds (candidate_qn caller_module_qn : string) :
  let d := _calculate_import_distance candidate_qn caller_module_qn in
  let A := PyStr.split dot candidate_qn in
  let B := PyStr.split dot caller_module_qn in
  (-1 <= d <= Z.of_nat (Nat.max (length A) (length B)))%Z
  ∧ (d = (-1)%Z ↔ candidate_qn = caller_module_qn ∧ 2 ≤ length B).
Proof.
  intros d A B.
  pose proof (common_prefix_len_le B A) as [HpB HpA].
  pose proof (split_nonempty dot caller_module_qn) as HBne. fold B in HBne.
  assert (HB1 : 1 ≤ length B) by (destruct B; [done | simpl; lia]).
  unfold d, _calculate_import_distance. fold A B.
  destruct (PyStr.startswith candidate_qn
              (PyStr.join "." (removelast B) +:+ ".")) eqn:Hbonus.
  - destruct (decide (2 ≤ length B)) as [HB2 | HB2].
    + pose proof (proj1 (parent_prefix_components candidate_qn caller_module_qn
                           HB2) Hbonus) as [[k Hk] Hlen].
      fold A B in Hk, Hlen. rewrite removelast_length in Hlen.
      assert (Hp : pred (length B) ≤ common_prefix_len B A).
      { apply common_prefix_len_max; [lia | lia |].
        rewrite take_removelast, Hk, take_app_length'; [done |].
        by rewrite removelast_length. }
      split; [lia |]. split.
      * intros Hd.
        assert (Hlen_eq : length A = length B ∧ common_prefix_len B A = length B)
          by lia.
        destruct Hlen_eq as [HAB Hfull].
        pose proof (common_prefix_len_take B A) as Htake.
        rewrite Hfull in Htake. rewrite <- HAB in Htake at 2.
        rewrite !firstn_all in Htake. split; [| done].
        apply split_inj. by fold A B.
      * intros [-> _]. fold B. unfold A. fold B.
        rewrite common_prefix_len_refl. lia.
    + assert (HBlen : length B = 1) by lia.
      destruct B as [|b [|b' B']] eqn:HB; simpl in HBlen; try lia.
      simpl in Hbonus. unfold PyStr.startswith in Hbonus.
      apply prefix_inv in Hbonus as [t Ht].
      assert (HA : A = "" :: PyStr.split dot t).
      { unfold A. rewrite Ht. change ("" +:+ "." +:+ t) with (String dot t).
        apply split_cons_sep. }
      pose proof (split_nonempty dot t) as Htne.
      rewrite HA in *. destruct (PyStr.split dot t) as [|t1 ts]; [done |].
      simpl in *. split; [destruct (String.eqb b ""); lia |].
      split; [destruct (String.eqb b ""); lia | intros [_ ?]; lia].
  - split; [lia |]. split; [lia |].
    intros [-> HB2]. exfalso.
    assert (PyStr.startswith caller_module_qn
              (PyStr.join "." (removelast B) +:+ ".") = true) as Hyes.
    { apply (parent_prefix_components caller_module_qn caller_module_qn HB2).
      fold B. rewrite removelast_length. split; [| lia].
      exists [List.last B ""]. apply app_removelast_last.
      by destruct B. }
    unfold A in Hbonus. congruence.
Qed.

(** A module seen from itself. *)
Lemma X2_witness :
  _calculate_import_distance "p.a.m" "p.a.m" = (-1)%Z.
Proof.
  apply (X2_import_distance_bounds "p.a.m" "p.a.m").
  split; [reflexivity | vm_compute; lia].
Defined.

(** ** The suffix fallback (_resolve_function_call, phase 2b) *)

Section FallbackChoice.

Lemma sort_by_key_nil key l : sort_by_key key l = [] → l = [].
Proof.
  destruct l as [|x l]; [done |]. intros H.
  assert (x ∈ sort_by_key key (x :: l)) as Hx
    by (apply (sort_by_key_elem key (x :: l) x); left).
  rewrite H in Hx. by apply elem_of_nil in Hx.
Qed.

(** The head of the sorted candidates is the first candidate of least key:
    those before it in the original order have a larger key. *)
Lemma sort_by_key_first_min key l best rest :
  sort_by_key key l = best :: rest →
  ∃ before after,
    l = before ++ best :: after
    ∧ (∀ y, y ∈ before → (key best < key y)%Z)
    ∧ (∀ y, y ∈ after → (key best <= key y)%Z).
Proof.
  revert best rest. induction l as [|x l IH]; intros best rest; [done |].
  simpl. destruct (sort_by_key key l) as [|h t] eqn:Hsort.
  - apply sort_by_key_nil in Hsort as ->. simpl. intros [= <- <-].
    exists [], []. split; [done |]. split; by intros y ?%elem_of_nil.
  - destruct (IH h t eq_refl) as (b & a & -> & Hb & Ha). simpl.
    destruct (Z.leb_spec (key x) (key h)) as [Hle | Hgt].
    + intros [= <- <-]. exists [], (b ++ h :: a). split; [done |].
      split; [by intros y ?%elem_of_nil |].
      intros y [Hy | [-> | Hy]%elem_of_cons]%elem_of_app.
      * specialize (Hb y Hy). lia.
      * done.
      * specialize (Ha y Hy). lia.
    + intros [= <- <-]. exists (x :: b), a. split; [done |].
      split; [| done].
      intros y [-> | Hy]%elem_of_cons; [lia | by apply Hb].
Qed.

Lemma dict_get_some_key (d : StrDict) k v :
  dict_get d k = Some v → k ∈ List.map fst d.
Proof.
  induction d as [|[k' v'] d IH]; simpl; [done |].
  destruct (String.eqb_spec k' k) as [-> | Hne]; [left | right; by apply IH].
Qed.

End FallbackChoice.

(** X3. When the suffix fallback resolves a call, its target is a registered
    name ending in ["." ++ call_name], of least import distance to the
    calling module among all such names; among the names of least distance
    it is the first one in the order [find_ending_with] lists them. *)
Theorem X3_suffix_fallback_picks_first_closest
    (reg : FunctionRegistry.t) (call_name module_qn kind qn : string) :
  suffix_fallback reg call_name module_qn = Some (kind, qn) →
  let distance := fun candidate => _calculate_import_distance candidate module_qn in
  FunctionRegistry.get reg qn = Some kind
  ∧ PyStr.endswith qn ("." +:+ call_name) = true
  ∧ ∃ before after,
      FunctionRegistry.find_ending_with reg call_name = before ++ qn :: after
      ∧ (∀ y, y ∈ before → (distance qn < distance y)%Z)
      ∧ (∀ y, y ∈ after → (distance qn <= distance y)%Z).
Proof.
  intros Hres distance. unfold suffix_fallback in Hres.
  destruct (FunctionRegistry.find_ending_with reg call_name) as [|c cs] eqn:Hfind;
    [done |].
  destruct (sort_by_key _ (c :: cs)) as [|best rest] eqn:Hsort; [done |].
  apply registry_hit_sound in Hres as [-> Hget].
  destruct (sort_by_key_first_min _ _ _ _ Hsort) as (b & a & Hsplit & Hb & Ha).
  split; [done |]. split.
  - assert (Hin : best ∈ FunctionRegistry.find_ending_with reg call_name).
    { rewrite Hfind, Hsplit. apply elem_of_app. right. left. }
    unfold FunctionRegistry.find_ending_with in Hin.
    by apply list_elem_of_In, filter_In in Hin as [_ ?].
  - by exists b, a.
Qed.

(** Two candidates at the same distance: the one registered first wins. *)
Lemma X3_witness :
  let reg : FunctionRegistry.t :=
    [("q.x.f", "Function"); ("p.a.f", "Function"); ("p.b.f", "Function")] in
  FunctionRegistry.get reg "p.a.f" = Some "Function"
  ∧ PyStr.endswith "p.a.f" ("." +:+ "f") = true
  ∧ ∃ before after,
      FunctionRegistry.find_ending_with reg "f" = before ++ "p.a.f" :: after
      ∧ (∀ y, y ∈ before →
           (_calculate_import_distance "p.a.f" "p.m"
            < _calculate_import_distance y "p.m")%Z)
      ∧ (∀ y, y ∈ after →
           (_calculate_import_distance "p.a.f" "p.m"
            <= _calculate_import_distance y "p.m")%Z).
Proof.
  intros reg.
  apply (X3_suffix_fallback_picks_first_closest reg "f" "p.m" "Function" "p.a.f").
  reflexivity.
Defined.

(** X4. A call that is neither a super call nor a method chain is never
    dropped while some registered name ends in ["." ++ call_name] (the name
    of the same module included): the resolver then returns a target. *)
Theorem X4_suffix_match_is_never_dropped
    (reg : FunctionRegistry.t) (im : gmap string StrDict)
    (ci : gmap string (list string))
    (rcn : string → string → gmap string StrDict → FunctionRegistry.t → option string)
    (inf : string → string → option (gmap string string) → option string)
    (call_name module_qn : string) (lvt : option (gmap string string))
    (ctx : option string) (qn : string) :
  PyStr.startswith call_name "super()" = false →
  _is_method_chain call_name = false →
  is_Some (FunctionRegistry.get reg qn) →
  PyStr.endswith qn ("." +:+ call_name) = true →
  is_Some (_resolve_function_call reg im ci rcn inf call_name module_qn lvt ctx).
Proof.
  intros Hsuper Hchain [kind Hget] Hends.
  unfold _resolve_function_call. rewrite Hsuper, Hchain, andb_false_r.
  destruct (import_phase _ _ _ _ _ _ _) as [hit|]; [by eexists |].
  destruct (same_module reg call_name module_qn) as [hit|]; [by eexists |].
  apply suffix_fallback_resolves. intros Hnil.
  assert (Hin : qn ∈ FunctionRegistry.find_ending_with reg call_name).
  { unfold FunctionRegistry.find_ending_with.
    apply list_elem_of_In, filter_In. split; [| done].
    apply list_elem_of_In. by eapply dict_get_some_key. }
  rewrite Hnil in Hin. by apply elem_of_nil in Hin.
Qed.

Lemma X4_witness :
  is_Some (_resolve_function_call [("lib.util.helper", "Function")] ∅ ∅
             Examples.no_class_resolution Examples.no_inference
             "helper" "app.main" None None).
Proof.
  apply (X4_suffix_match_is_never_dropped [("lib.util.helper", "Function")] ∅ ∅
           Examples.no_class_resolution Examples.no_inference
           "helper" "app.main" None None "lib.util.helper");
    [reflexivity | reflexivity | by eexists | reflexivity].
Defined.

(** ** Method chains (_is_method_chain, _resolve_chained_call) *)

Section ChainFacts.

Lemma join_middle l part :
  part ∈ l → ∃ x y, PyStr.join "." l = x +:+ part +:+ y.
Proof.
  induction l as [|h l IH]; [by intros ?%elem_of_nil |].
  destruct l as [|h' l].
  - intros ->%list_elem_of_singleton. exists "", "".
    by rewrite append_empty_r.
  - rewrite join_cons2. intros [-> | Hin]%elem_of_cons.
    + by exists "", ("." +:+ PyStr.join "." (h' :: l)).
    + destruct (IH Hin) as (x & y & ->).
      exists (h +:+ "." +:+ x), y. by rewrite !append_assoc.
Qed.

(** A character of a piece is a character of the text. *)
Lemma contains_char_piece c s part :
  part ∈ PyStr.split dot s →
  PyStr.contains (String c "") part = true →
  PyStr.contains (String c "") s = true.
Proof.
  intros Hin (a & b & ->)%contains_sep_iff.
  destruct (join_middle _ _ Hin) as (x & y & Hs). rewrite join_split in Hs.
  apply contains_sep_iff. exists (x +:+ a), (b +:+ y).
  rewrite Hs, !append_assoc. reflexivity.
Qed.

Lemma has_parens_piece s part :
  part ∈ PyStr.split dot s → has_parens part = true → has_parens s = true.
Proof.
  unfold has_parens. intros Hin [H1 H2]%andb_true_iff.
  apply andb_true_iff. split.
  - by apply (contains_char_piece "(" s part).
  - by apply (contains_char_piece ")" s part).
Qed.

Lemma filter_length_pos {A} (f : A → bool) (l : list A) :
  1 ≤ length (List.filter f l) ↔ ∃ x, x ∈ l ∧ f x = true.
Proof.
  split.
  - destruct (List.filter f l) as [|x t] eqn:E; [simpl; lia |]. intros _.
    assert (In x (List.filter f l)) as Hx by (rewrite E; left; done).
    apply filter_In in Hx as [Hx Hf]. exists x. split; [| done].
    by apply list_elem_of_In.
  - intros (x & Hx & Hf).
    assert (In x (List.filter f l)) as Hin.
    { apply filter_In. split; [by apply list_elem_of_In | done]. }
    destruct (List.filter f l); [done | simpl; lia].
Qed.

End ChainFacts.

(** X5. A call name is classified as a method chain exactly when it contains
    a dot and one of its dot-separated pieces holds both an opening and a
    closing parenthesis.  So plain names and dotted names without
    parentheses are never chains, and the test for a dot that
    [_resolve_function_call] makes before is implied. *)
Theorem X5_method_chain_characterised (call_name : string) :
  _is_method_chain call_name = true
  ↔ PyStr.contains "." call_name = true
    ∧ ∃ part, part ∈ PyStr.split dot call_name ∧ has_parens part = true.
Proof.
  unfold _is_method_chain. split.
  - destruct (has_parens call_name); [| done].
    intros [Hcount Hlen]%andb_true_iff.
    apply Nat.leb_le in Hcount, Hlen. split.
    + by apply split_two_iff.
    + by apply filter_length_pos.
  - intros [Hdot (part & Hin & Hpart)].
    rewrite (has_parens_piece _ _ Hin Hpart).
    apply andb_true_iff. split; apply Nat.leb_le.
    + apply filter_length_pos. by exists part.
    + by apply split_two_iff.
Qed.

(** A dot followed by a non-empty final piece without parenthesis is what
    the pattern matches. *)
Lemma final_method_match_intro (object_expr final_method : string) :
  final_method ≠ "" →
  PyStr.contains "." final_method = false →
  PyStr.contains "(" final_method = false →
  PyStr.contains ")" final_method = false →
  final_method_match (object_expr +:+ "." +:+ final_method)
  = Some (object_expr, final_method).
Proof.
  intros Hne Hdot Ho Hc. unfold final_method_match.
  rewrite split_snoc by done.
  destruct (reverse_snoc_cons (PyStr.split dot object_expr) final_method)
    as (y & l & ->); [apply split_nonempty |].
  rewrite (truthy_ne _ Hne), Ho, Hc, removelast_snoc, join_split. done.
Qed.

(** X6. The pattern of [_resolve_chained_call] matches a call name exactly
    when the text after its last dot is not empty and holds no parenthesis;
    the object expression and the final method it returns give the call
    name back when joined by a dot. *)
Theorem X6_final_method_roundtrip (call_name object_expr final_method : string) :
  final_method_match call_name = Some (object_expr, final_method)
  ↔ call_name = object_expr +:+ "." +:+ final_method
    ∧ final_method ≠ ""
    ∧ PyStr.contains "." final_method = false
    ∧ PyStr.contains "(" final_method = false
    ∧ PyStr.contains ")" final_method = false.
Proof.
  split.
  - unfold final_method_match.
    destruct (reverse (PyStr.split dot call_name)) as [|final [|y l]] eqn:Hrev;
      [done | done |].
    assert (Hparts : PyStr.split dot call_name = reverse (y :: l) ++ [final]).
    { apply (f_equal reverse) in Hrev. rewrite reverse_involutive in Hrev.
      rewrite Hrev. by rewrite reverse_cons. }
    destruct (PyStr.truthy final) eqn:Ht; [| done].
    destruct (PyStr.contains "(" final) eqn:Ho; [done |].
    destruct (PyStr.contains ")" final) eqn:Hc; [done |].
    simpl. intros [= <- <-]. rewrite Hparts, removelast_snoc.
    split; [| split; [by apply truthy_iff | split; [| done]]].
    + rewrite <- (join_split call_name) at 1. rewrite Hparts.
      rewrite join_app; [done | | done].
      intros E. apply (f_equal reverse) in E.
      by rewrite reverse_involutive in E.
    + apply (split_pieces_no_sep dot call_name). rewrite Hparts.
      apply elem_of_app. right. left.
  - intros (-> & Hne & Hdot & Ho & Hc). by apply final_method_match_intro.
Qed.

(** X7. A method chain [object_expr.final_method] whose object expression
    has an inferred type is resolved on that type alone: the method of the
    (class-resolved) type when registered, else the first one found by the
    inheritance walk; import map, same-module probe and suffix fallback
    play no part. *)
Theorem X7_chain_resolves_on_inferred_type
    (reg : FunctionRegistry.t) (im : gmap string StrDict)
    (ci : gmap string (list string))
    (rcn : string → string → gmap string StrDict → FunctionRegistry.t → option string)
    (inf : string → string → option (gmap string string) → option string)
    (object_expr final_method module_qn : string)
    (lvt : option (gmap string string)) (ctx : option string)
    (object_type : string) :
  let call_name := object_expr +:+ "." +:+ final_method in
  let full_object_type :=
    if PyStr.contains "." object_type then object_type
    else match rcn object_type module_qn im reg with
         | Some resolved_class =>
             if PyStr.truthy resolved_class then resolved_class else object_type
         | None => object_type
         end in
  PyStr.startswith call_name "super()" = false →
  _is_method_chain call_name = true →
  final_method ≠ "" →
  PyStr.contains "." final_method = false →
  PyStr.contains "(" final_method = false →
  PyStr.contains ")" final_method = false →
  inf object_expr module_qn lvt = Some object_type →
  object_type ≠ "" →
  _resolve_function_call reg im ci rcn inf call_name module_qn lvt ctx
  = match FunctionRegistry.get reg (full_object_type +:+ "." +:+ final_method) with
    | Some kind => Some (kind, full_object_type +:+ "." +:+ final_method)
    | None => _resolve_inherited_method reg ci full_object_type final_method
    end.
Proof.
  intros call_name full Hsuper Hchain Hne Hdot Hopen Hclose Hinf Htype.
  unfold _resolve_function_call.
  rewrite Hsuper, Hchain. unfold call_name at 1.
  rewrite contains_name_rest. simpl andb. cbv iota.
  unfold _resolve_chained_call.
  unfold call_name. rewrite final_method_match_intro by done.
  rewrite Hinf, (truthy_ne _ Htype). simpl negb. cbv iota.
  unfold _resolve_class_name, registry_hit. fold full.
  destruct (PyStr.contains "." object_type) eqn:Hty; simpl negb; cbv iota;
    fold full; by destruct (FunctionRegistry.get reg _).
Qed.

(** The chain of the specification: [user.update_name("x").clone] with the
    object expression inferred as [User], a class of module [project.u]. *)
Lemma X7_witness :
  let reg : FunctionRegistry.t :=
    [("project.u.User.clone", "Method"); ("project.x.clone", "Function")] in
  let inf : string → string → option (gmap string string) → option string :=
    fun object_expr _ _ =>
      if String.eqb object_expr "user.update_name('x')" then Some "project.u.User"
      else None in
  _resolve_function_call reg ∅ ∅ Examples.no_class_resolution inf
    ("user.update_name('x')" +:+ "." +:+ "clone") "project.x" None None
  = Some ("Method", "project.u.User.clone").
Proof.
  intros reg inf.
  rewrite (X7_chain_resolves_on_inferred_type reg ∅ ∅
             Examples.no_class_resolution inf
             "user.update_name('x')" "clone" "project.x" None None
             "project.u.User"); done.
Defined.

(** ** Phase 1: imports and typed receivers *)

(** X8. A call [self.attr.method] (a deeper attribute path alike) in a
    module with an import map, which the direct import lookup does not
    resolve and which is no method chain: when [local_var_types] binds the
    attribute reference to a type resolving to a non-empty [class_qn], the
    call resolves to [class_qn.method] if that is registered, and else to
    what the inheritance walk from [class_qn] finds. *)
Theorem X8_self_attribute_call
    (reg : FunctionRegistry.t) (im : gmap string StrDict)
    (ci : gmap string (list string))
    (rcn : string → string → gmap string StrDict → FunctionRegistry.t → option string)
    (inf : string → string → option (gmap string string) → option string)
    (module_qn : string) (import_map : StrDict)
    (lvt : option (gmap string string)) (ctx : option string)
    (attr_path method_name var_type : string) :
  let attribute_ref := "self" +:+ "." +:+ attr_path in
  let call_name := attribute_ref +:+ "." +:+ method_name in
  let class_qn :=
    match dict_get import_map var_type with
    | Some qn => qn
    | None => default "" (rcn var_type module_qn im reg)
    end in
  im !! module_qn = Some import_map →
  _is_method_chain call_name = false →
  PyStr.contains "." method_name = false →
  direct_import reg import_map call_name = None →
  lvt_get lvt attribute_ref = Some var_type →
  class_qn ≠ "" →
  (∀ kind, FunctionRegistry.get reg (class_qn +:+ "." +:+ method_name) = Some kind →
     _resolve_function_call reg im ci rcn inf call_name module_qn lvt ctx
     = Some (kind, class_qn +:+ "." +:+ method_name))
  ∧ (∀ hit, FunctionRegistry.get reg (class_qn +:+ "." +:+ method_name) = None →
       _resolve_inherited_method reg ci class_qn method_name = Some hit →
       _resolve_function_call reg im ci rcn inf call_name module_qn lvt ctx
       = Some hit).
Proof.
  intros attribute_ref call_name class_qn Him Hchain Hdot Hdir Hlvt Hne.
  assert (Hsuper : PyStr.startswith call_name "super()" = false) by reflexivity.
  assert (Hparts : PyStr.split dot call_name
                   = ("self" :: PyStr.split dot attr_path) ++ [method_name]).
  { unfold call_name. rewrite split_snoc by done.
    unfold attribute_ref. by rewrite split_name_rest. }
  assert (Hres : _resolve_function_call reg im ci rcn inf call_name module_qn lvt ctx
                 = match resolve_on_type reg im ci rcn import_map module_qn
                           var_type method_name with
                   | Some hit => Some hit
                   | None =>
                       match wildcard_imports reg import_map call_name with
                       | Some hit => Some hit
                       | None =>
                           match same_module reg call_name module_qn with
                           | Some hit => Some hit
                           | None => suffix_fallback reg call_name module_qn
                           end
                       end
                   end).
  { unfold _resolve_function_call. rewrite Hsuper, Hchain, andb_false_r.
    unfold import_phase. rewrite Him, Hdir. unfold qualified_call.
    unfold call_name at 1. rewrite contains_name_rest, Hparts.
    rewrite removelast_snoc, last_last.
    assert (Hform : Nat.leb 3 (length (("self" :: PyStr.split dot attr_path)
                                        ++ [method_name]))
                    && bool_decide (head (("self" :: PyStr.split dot attr_path)
                                          ++ [method_name]) = Some "self") = true).
    { apply andb_true_iff. split.
      - apply Nat.leb_le. rewrite length_app. simpl.
        pose proof (split_nonempty dot attr_path).
        destruct (PyStr.split dot attr_path); [done | simpl; lia].
      - by apply bool_decide_eq_true_2. }
    rewrite Hform.
    replace (PyStr.join "." ("self" :: PyStr.split dot attr_path))
      with attribute_ref.
    - rewrite Hlvt.
      by destruct (resolve_on_type reg im ci rcn import_map module_qn
                     var_type method_name).
    - unfold attribute_ref. rewrite <- (join_split attr_path) at 1.
      pose proof (split_nonempty dot attr_path).
      by destruct (PyStr.split dot attr_path). }
  rewrite Hres. unfold resolve_on_type, _resolve_class_name. fold class_qn.
  rewrite (truthy_ne _ Hne). unfold registry_hit. split.
  - intros kind Hget. by rewrite Hget.
  - intros hit Hget Hinh. by rewrite Hget, Hinh.
Qed.

(** [self.repo.find_by_id] with [self.repo] bound to [Repo], imported from
    [project.m]. *)
Lemma X8_witness :
  _resolve_function_call
    [("project.m.Repo.find_by_id", "Method")]
    {[ "project.u" := [("Repo", "project.m.Repo")] ]} ∅
    Examples.no_class_resolution Examples.no_inference
    (("self" +:+ "." +:+ "repo") +:+ "." +:+ "find_by_id") "project.u"
    (Some {[ "self.repo" := "Repo" ]}) (Some "project.u.Service")
  = Some ("Method", "project.m.Repo.find_by_id").
Proof.
  destruct (X8_self_attribute_call
              [("project.m.Repo.find_by_id", "Method")]
              {[ "project.u" := [("Repo", "project.m.Repo")] ]} ∅
              Examples.no_class_resolution Examples.no_inference
              "project.u" [("Repo", "project.m.Repo")]
              (Some {[ "self.repo" := "Repo" ]}) (Some "project.u.Service")
              "repo" "find_by_id" "Repo") as [Hexact _];
    [reflexivity | reflexivity | reflexivity | reflexivity | reflexivity
    | discriminate |].
  apply Hexact. reflexivity.
Defined.

(** X9. An imported name wins: in a module with an import map, a call name
    (no super call, no method chain) that the import map binds to a
    registered name resolves to that name, whatever the local variable
    types, the wildcard imports, the functions of the module and the other
    registered names are. *)
Theorem X9_direct_import_wins
    (reg : FunctionRegistry.t) (im : gmap string StrDict)
    (ci : gmap string (list string))
    (rcn : string → string → gmap string StrDict → FunctionRegistry.t → option string)
    (inf : string → string → option (gmap string string) → option string)
    (call_name module_qn : string) (import_map : StrDict)
    (lvt : option (gmap string string)) (ctx : option string)
    (imported_qn kind : string) :
  PyStr.startswith call_name "super()" = false →
  _is_method_chain call_name = false →
  im !! module_qn = Some import_map →
  dict_get import_map call_name = Some imported_qn →
  FunctionRegistry.get reg imported_qn = Some kind →
  _resolve_function_call reg im ci rcn inf call_name module_qn lvt ctx
  = Some (kind, imported_qn).
Proof.
  intros Hsuper Hchain Him Hbound Hget.
  unfold _resolve_function_call. rewrite Hsuper, Hchain, andb_false_r.
  unfold import_phase, direct_import. rewrite Him, Hbound.
  by rewrite (registry_hit_get _ _ _ Hget).
Qed.

(** [from a.b import f as ff] in a module that has a function [ff] of its
    own: the call [ff()] goes to the imported function. *)
Lemma X9_witness :
  _resolve_function_call
    [("project.x.ff", "Function"); ("project.a.b.f", "Function")]
    {[ "project.x" := [("ff", "project.a.b.f")] ]} ∅
    Examples.no_class_resolution Examples.no_inference
    "ff" "project.x" None None
  = Some ("Function", "project.a.b.f").
Proof.
  apply (X9_direct_import_wins _ _ ∅ Examples.no_class_resolution
           Examples.no_inference "ff" "project.x" [("ff", "project.a.b.f")]);
    done.
Defined.

(** X10. A plain call name (without dot, no super call) that the direct
    import lookup does not resolve, in a module with an import map: when one
    of the names the wildcard imports give it is registered, the call
    resolves to the first such name, ahead of a function of that name in the
    module itself. *)
Theorem X10_wildcard_before_same_module
    (reg : FunctionRegistry.t) (im : gmap string StrDict)
    (ci : gmap string (list string))
    (rcn : string → string → gmap string StrDict → FunctionRegistry.t → option string)
    (inf : string → string → option (gmap string string) → option string)
    (call_name module_qn : string) (import_map : StrDict)
    (lvt : option (gmap string string)) (ctx : option string)
    (hit : Callee) :
  PyStr.startswith call_name "super()" = false →
  PyStr.contains "." call_name = false →
  im !! module_qn = Some import_map →
  direct_import reg import_map call_name = None →
  first_registered reg (wildcard_probes import_map call_name) = Some hit →
  _resolve_function_call reg im ci rcn inf call_name module_qn lvt ctx = Some hit.
Proof.
  intros Hsuper Hdot Him Hdir Hwild.
  unfold _resolve_function_call. rewrite Hsuper, Hdot. simpl andb. cbv iota.
  unfold import_phase. rewrite Him, Hdir.
  unfold qualified_call. rewrite Hdot.
  assert (Hw : wildcard_imports reg import_map call_name = Some hit).
  { rewrite <- Hwild. clear.
    induction import_map as [|[local_name imported_qn] items IH]; [done |].
    simpl. rewrite first_registered_app, <- IH. unfold potential_qns.
    by destruct (PyStr.startswith local_name "*"). }
  by rewrite Hw.
Qed.

(** [from helpers import *] in a module that defines [util] itself. *)
Lemma X10_witness :
  _resolve_function_call
    [("project.m.util", "Function"); ("helpers.util", "Function")]
    {[ "project.m" := [("*helpers", "helpers")] ]} ∅
    Examples.no_class_resolution Examples.no_inference
    "util" "project.m" None None
  = Some ("Function", "helpers.util").
Proof.
  apply (X10_wildcard_before_same_module _ _ ∅ Examples.no_class_resolution
           Examples.no_inference "util" "project.m" [("*helpers", "helpers")]);
    done.
Defined.

(** ** Names of nested functions (_build_nested_qualified_name, _is_method) *)

Section NestedNames.

Context (lq : LanguageQueries).

Lemma enclosing_path_acc ancestors acc :
  enclosing_path lq ancestors acc = (fun p => acc ++ p) <$> enclosing_path lq ancestors [].
Proof.
  revert acc. induction ancestors as [|cur up IH]; intros acc; simpl.
  - by rewrite app_nil_r.
  - destruct (type_in (module_node_types (config lq)) cur);
      [simpl; by rewrite app_nil_r |].
    destruct (type_in (function_node_types (config lq)) cur).
    + destruct (child_by_field_name cur "name") as [name_node|]; [| apply IH].
      destruct (node_text name_node) as [text|]; [| apply IH].
      rewrite (IH (acc ++ [text])), (IH [text]).
      destruct (enclosing_path lq up []); simpl; [| done].
      by rewrite <- app_assoc.
    + destruct (type_in (class_node_types (config lq)) cur); [done | apply IH].
Qed.

Lemma enclosing_path_passed mid ancestors acc :
  Forall (passed_by lq) mid →
  enclosing_path lq (mid ++ ancestors) acc = enclosing_path lq ancestors acc.
Proof.
  induction 1 as [|n mid (Hm & Hf & Hc) _ IH]; [done |].
  simpl. by rewrite Hm, Hf, Hc.
Qed.

Lemma enclosing_path_function cur up acc name :
  type_in (module_node_types (config lq)) cur = false →
  type_in (function_node_types (config lq)) cur = true →
  declared_name cur = Some name →
  enclosing_path lq (cur :: up) acc = enclosing_path lq up (acc ++ [name]).
Proof.
  intros Hm Hf Hname. simpl. rewrite Hm, Hf. unfold declared_name in Hname.
  destruct (child_by_field_name cur "name") as [name_node|]; [| done].
  by rewrite Hname.
Qed.

(** Without a class on the way up there is a path of names. *)
Lemma enclosing_path_not_method ancestors :
  _is_method lq ancestors = false → is_Some (enclosing_path lq ancestors []).
Proof.
  induction ancestors as [|cur up IH]; simpl; [by eexists |].
  destruct (type_in (module_node_types (config lq)) cur); [by eexists |].
  destruct (type_in (function_node_types (config lq)) cur).
  - destruct (type_in (class_node_types (config lq)) cur); [done |].
    intros [path Hpath]%IH.
    destruct (child_by_field_name cur "name") as [name_node|]; [| by eexists].
    destruct (node_text name_node) as [text|]; [| by eexists].
    rewrite enclosing_path_acc, Hpath. by eexists.
  - destruct (type_in (class_node_types (config lq)) cur); [done | apply IH].
Qed.

End NestedNames.

(** X11. The name of a function nested in a function extends the name of
    that function: if the nearest enclosing function [outer] (nothing but
    blocks and the like between the two) is named [outer_qn] by
    [_build_nested_qualified_name], the nested function [func_name] is
    named [outer_qn.func_name]. *)
Theorem X11_nested_name_extends_enclosing
    (lq : LanguageQueries) (mid : list Node) (outer : Node)
    (ancestors : list Node) (module_qn outer_name func_name outer_qn : string) :
  Forall (passed_by lq) mid →
  type_in (module_node_types (config lq)) outer = false →
  type_in (function_node_types (config lq)) outer = true →
  declared_name outer = Some outer_name →
  _build_nested_qualified_name lq ancestors module_qn outer_name = Some outer_qn →
  _build_nested_qualified_name lq (mid ++ outer :: ancestors) module_qn func_name
  = Some (outer_qn +:+ "." +:+ func_name).
Proof.
  intros Hmid Hm Hf Hname Houter.
  assert (Hpath : enclosing_path lq (mid ++ outer :: ancestors) []
                  = (fun p => outer_name :: p) <$> enclosing_path lq ancestors []).
  { rewrite enclosing_path_passed by done.
    rewrite (enclosing_path_function _ _ _ _ outer_name) by done.
    by rewrite enclosing_path_acc. }
  unfold _build_nested_qualified_name in *.
  destruct ancestors as [|a ancestors']; [done |].
  destruct (mid ++ outer :: a :: ancestors') as [|x rest] eqn:Hlist;
    [by destruct mid |].
  rewrite Hpath.
  destruct (enclosing_path lq (a :: ancestors') []) as [path|]; [| done].
  cbn [fmap option_fmap option_map]. rewrite reverse_cons.
  destruct (reverse path) as [|p ps] eqn:Hrev.
  - injection Houter as <-. change ([] ++ [outer_name]) with [outer_name].
    change (PyStr.join "." [outer_name]) with outer_name.
    by rewrite !append_assoc.
  - injection Houter as <-.
    destruct ((p :: ps) ++ [outer_name]) as [|y ys] eqn:Happ;
      [by destruct ps |].
    rewrite <- Happ. f_equal. rewrite join_app by done.
    rewrite !append_assoc. reflexivity.
Qed.

(** [leaf] in [mid] in [outer], as the parser nests them. *)
Lemma X11_witness :
  let module_node := mkNode "module" None [] in
  let block := mkNode "block" None [] in
  _build_nested_qualified_name Examples.python_queries
    ([block] ++ Examples.function_def "mid" []
       :: [block; Examples.function_def "outer" []; module_node])
    "proj.mod" "leaf"
  = Some ("proj.mod.outer.mid" +:+ "." +:+ "leaf").
Proof.
  intros module_node block.
  apply (X11_nested_name_extends_enclosing Examples.python_queries
           [block] (Examples.function_def "mid" [])
           [block; Examples.function_def "outer" []; module_node]
           "proj.mod" "mid" "leaf" "proj.mod.outer.mid");
    try reflexivity.
  repeat constructor.
Defined.

(** X12. A function that [_is_method] does not take for a method, and that
    has a parent node, always gets a name from
    [_build_nested_qualified_name], and the name begins with the module name
    and a dot: [_process_calls_in_functions] never skips such a function for
    want of a name. *)
Theorem X12_functions_always_named
    (lq : LanguageQueries) (ancestors : list Node) (module_qn func_name : string) :
  ancestors ≠ [] →
  _is_method lq ancestors = false →
  ∃ func_qn,
    _build_nested_qualified_name lq ancestors module_qn func_name = Some func_qn
    ∧ PyStr.startswith func_qn (module_qn +:+ ".") = true
    ∧ PyStr.truthy func_qn = true.
Proof.
  intros Hne Hmethod.
  destruct (enclosing_path_not_method lq ancestors Hmethod) as [path Hpath].
  unfold _build_nested_qualified_name. rewrite Hpath.
  destruct ancestors as [|a ancestors']; [done |].
  assert (Htruthy : ∀ t, PyStr.truthy (module_qn +:+ "." +:+ t) = true).
  { intros t. apply truthy_ne. intros E.
    destruct module_qn; discriminate E. }
  destruct (reverse path) as [|p ps]; eexists; (split; [reflexivity |]).
  - split; [| apply Htruthy]. unfold PyStr.startswith.
    rewrite <- append_assoc. apply prefix_app.
  - split; [| apply Htruthy]. unfold PyStr.startswith.
    rewrite <- append_assoc. apply prefix_app.
Qed.

Lemma X12_witness :
  ∃ func_qn,
    _build_nested_qualified_name Examples.python_queries
      [mkNode "module" None []] "proj.mod" "f" = Some func_qn
    ∧ PyStr.startswith func_qn ("proj.mod" +:+ ".") = true
    ∧ PyStr.truthy func_qn = true.
Proof.
  apply (X12_functions_always_named Examples.python_queries
           [mkNode "module" None []] "proj.mod" "f"); done.
Defined.

(** ** Sources of the relationships of a file *)

(** X13. Every relationship asserted for a file starts at a node labelled
    "Function" or "Method" whose qualified name begins with the module name
    of the file and a dot: the function pass asserts from "Function" nodes,
    the class pass from "Method" nodes, and neither asserts a relationship
    from outside the module. *)
Theorem X13_sources_lie_in_the_module
    (reg : FunctionRegistry.t) (im : gmap string StrDict)
    (ci : gmap string (list string))
    (rcn : string → string → gmap string StrDict → FunctionRegistry.t → option string)
    (inf : string → string → option (gmap string string) → option string)
    (build : Node → string → gmap string string) (lq : LanguageQueries)
    (root_node : Node) (module_qn : string) (r : Relationship) :
  r ∈ process_calls reg im ci rcn inf build lq root_node module_qn →
  ∃ src_type src_qn callee,
    r = calls_edge src_type src_qn callee
    ∧ PyStr.startswith src_qn (module_qn +:+ ".") = true
    ∧ ((src_type = "Function"
        ∧ r ∈ _process_calls_in_functions reg im ci rcn inf build lq
                root_node module_qn)
       ∨ (src_type = "Method"
          ∧ r ∈ _process_calls_in_classes reg im ci rcn inf build lq
                  root_node module_qn)).
Proof.
  unfold process_calls. intros [Hf | Hc]%elem_of_app.
  - pose proof Hf as Hin.
    apply list_elem_of_In, in_flat_map in Hf as ([func_node anc] & _ & Hr).
    apply list_elem_of_In in Hr. unfold process_function_node in Hr.
    destruct (_is_method lq anc) eqn:Hm; [by apply elem_of_nil in Hr |].
    destruct (declared_name func_node) as [func_name|];
      [| by apply elem_of_nil in Hr].
    destruct (_build_nested_qualified_name lq anc module_qn func_name)
      as [func_qn|] eqn:Hqn; [| by apply elem_of_nil in Hr].
    destruct (PyStr.truthy func_qn); [| by apply elem_of_nil in Hr].
    apply ingest_function_calls_registered in Hr as (callee & -> & _).
    exists "Function", func_qn, callee. split; [done |]. split; [| by left].
    unfold _build_nested_qualified_name in Hqn.
    destruct anc as [|a anc']; [done |].
    destruct (enclosing_path lq (a :: anc') []) as [path|]; [| done].
    unfold PyStr.startswith.
    destruct (reverse path); injection Hqn as <-;
      rewrite <- append_assoc; apply prefix_app.
  - pose proof Hc as Hin.
    apply list_elem_of_In, in_flat_map in Hc as (class_node & _ & Hr).
    apply list_elem_of_In in Hr. unfold process_class_node in Hr.
    destruct (declared_name class_node) as [class_name|];
      [| by apply elem_of_nil in Hr].
    destruct (child_by_field_name class_node "body") as [body_node|];
      [| by apply elem_of_nil in Hr].
    apply list_elem_of_In, in_flat_map in Hr as (method_node & _ & Hr).
    apply list_elem_of_In in Hr. unfold process_method_node in Hr.
    destruct (declared_name method_node) as [method_name|];
      [| by apply elem_of_nil in Hr].
    apply ingest_function_calls_registered in Hr as (callee & -> & _).
    eexists "Method", _, callee. split; [done |]. split; [| by right].
    unfold PyStr.startswith.
    rewrite !append_assoc, <- (append_assoc module_qn "."). apply prefix_app.
Qed.

Lemma X13_witness :
  let r := calls_edge "Method" "proj.mod.C.m" ("Function", "proj.mod.f") in
  ∃ src_type src_qn callee,
    r = calls_edge src_type src_qn callee
    ∧ PyStr.startswith src_qn ("proj.mod" +:+ ".") = true
    ∧ ((src_type = "Function"
        ∧ r ∈ _process_calls_in_functions Examples.nested_registry ∅ ∅
                Examples.no_class_resolution Examples.no_inference
                Examples.no_local_types Examples.python_queries
                Examples.nested_module "proj.mod")
       ∨ (src_type = "Method"
          ∧ r ∈ _process_calls_in_classes Examples.nested_registry ∅ ∅
                  Examples.no_class_resolution Examples.no_inference
                  Examples.no_local_types Examples.python_queries
                  Examples.nested_module "proj.mod")).
Proof.
  intros r.
  apply (X13_sources_lie_in_the_module Examples.nested_registry ∅ ∅
           Examples.no_class_resolution Examples.no_inference
           Examples.no_local_types Examples.python_queries
           Examples.nested_module "proj.mod" r).
  vm_compute. left.
Defined.

(** ** Calls without attribute callee *)

Lemma flat_map_length_le {A B} (f : A → list B) (l : list A) :
  (∀ x, length (f x) ≤ 1) → length (flat_map f l) ≤ length l.
Proof.
  intros Hf. induction l as [|x l IH]; [done |].
  cbn [flat_map]. rewrite length_app. specialize (Hf x). simpl. lia.
Qed.

(** X14. Repeated assertions come from attribute callees only: when no
    captured call node of the caller has an "attribute" node as its
    "function" child (so in trees of languages whose member accesses are of
    another node type), [_ingest_function_calls] asserts at most one
    relationship per captured call node, the one of the node itself. *)
Theorem X14_one_relationship_per_call_without_attribute
    (reg : FunctionRegistry.t) (im : gmap string StrDict)
    (ci : gmap string (list string))
    (rcn : string → string → gmap string StrDict → FunctionRegistry.t → option string)
    (inf : string → string → option (gmap string string) → option string)
    (build : Node → string → gmap string string) (lq : LanguageQueries)
    (caller_node : Node) (caller_qn caller_type module_qn : string)
    (ctx : option string) (calls_query : Query) :
  calls lq = Some calls_query →
  (∀ call_node func_child,
     call_node ∈ captures calls_query caller_node →
     child_by_field_name call_node "function" = Some func_child →
     node_type func_child ≠ "attribute") →
  let output :=
    _ingest_function_calls reg im ci rcn inf build lq
      caller_node caller_qn caller_type module_qn ctx in
  output
  = flat_map
      (emit_call reg im ci rcn inf caller_qn caller_type module_qn
         (Some (build caller_node module_qn)) ctx)
      (captures calls_query caller_node)
  ∧ length output ≤ length (captures calls_query caller_node).
Proof.
  intros Hq Hno output.
  assert (Hout : output
                 = flat_map
                     (emit_call reg im ci rcn inf caller_qn caller_type module_qn
                        (Some (build caller_node module_qn)) ctx)
                     (captures calls_query caller_node)).
  { unfold output, _ingest_function_calls. rewrite Hq.
    induction (captures calls_query caller_node) as [|n l IH]; [done |].
    simpl. rewrite IH.
    - f_equal. unfold ingest_call_node, _process_nested_calls_in_node.
      destruct (child_by_field_name n "function") as [f|] eqn:Hf; [| done].
      rewrite bool_decide_eq_false_2; [done |].
      apply (Hno n f); [left | done].
    - intros c f Hc. apply Hno. by right. }
  split; [exact Hout |]. rewrite Hout.
  apply flat_map_length_le. intros n. unfold emit_call.
  destruct (_get_call_target_name n) as [name|]; [| simpl; lia].
  destruct (PyStr.truthy name); [| simpl; lia].
  destruct (resolve _ _ _ _ _ _ _ _ name); simpl; lia.
Qed.

(** [def h(): unknown(); f()]: two plain calls, one of them resolved. *)
Lemma X14_witness :
  let output :=
    _ingest_function_calls Examples.two_calls_registry ∅ ∅
      Examples.no_class_resolution Examples.no_inference Examples.no_local_types
      Examples.python_queries Examples.two_calls_function
      "proj.mod.h" "Function" "proj.mod" None in
  output
  = flat_map
      (emit_call Examples.two_calls_registry ∅ ∅
         Examples.no_class_resolution Examples.no_inference
         "proj.mod.h" "Function" "proj.mod"
         (Some (Examples.no_local_types Examples.two_calls_function "proj.mod"))
         None)
      (captures ["call"] Examples.two_calls_function)
  ∧ length output ≤ length (captures ["call"] Examples.two_calls_function).
Proof.
  apply (X14_one_relationship_per_call_without_attribute
           Examples.two_calls_registry ∅ ∅
           Examples.no_class_resolution Examples.no_inference
           Examples.no_local_types Examples.python_queries
           Examples.two_calls_function "proj.mod.h" "Function" "proj.mod" None
           ["call"]); [reflexivity |].
  intros call_node func_child Hin Hchild.
  vm_compute in Hin.
  apply elem_of_cons in Hin as [-> | Hin];
    [injection Hchild as <-; discriminate |].
  apply elem_of_cons in Hin as [-> | Hin];
    [injection Hchild as <-; discriminate |].
  by apply elem_of_nil in Hin.
Defined.

(** ** More on super calls and the inheritance walk *)

Section WalkMore.

Context (reg : FunctionRegistry.t) (ci : gmap string (list string)).

Lemma first_hit_some m l kind qn :
  first_hit reg m l = Some (kind, qn) →
  ∃ a, a ∈ l ∧ qn = a +:+ "." +:+ m ∧ FunctionRegistry.get reg qn = Some kind.
Proof.
  induction l as [|p l IH]; simpl; [done |].
  destruct (registry_hit reg (p +:+ "." +:+ m)) as [hit|] eqn:Hp.
  - intros [= ->]. apply registry_hit_sound in Hp as [-> Hget].
    exists p. split; [left | done].
  - intros (a & Ha & Hq)%IH. exists a. split; [by right | done].
Qed.

Lemma fresh_nodup gps visited : NoDup (fresh gps visited).
Proof.
  revert visited. induction gps as [|g gps IH]; intros visited; simpl.
  - constructor.
  - destruct (decide (g ∈ visited)); [apply IH |].
    constructor; [| apply IH].
    intros [_ Hg]%fresh_elem. set_solver.
Qed.



End WalkMore.

(** X15. A super call resolves to a method of an ancestor only: whenever a
    call name beginning with "super()" is resolved, there is a class
    context, the call name has a method part after its first dot, and the
    target is that method on a (direct or indirect) parent of the class
    context, registered with the kind returned.  Without class context,
    without dot or without any ancestor, the call stays unresolved. *)
Theorem X15_super_resolves_to_an_ancestor
    (reg : FunctionRegistry.t) (im : gmap string StrDict)
    (ci : gmap string (list string))
    (rcn : string → string → gmap string StrDict → FunctionRegistry.t → option string)
    (inf : string → string → option (gmap string string) → option string)
    (call_name module_qn : string) (lvt : option (gmap string string))
    (ctx : option string) (kind qn : string) :
  PyStr.startswith call_name "super()" = true →
  _resolve_function_call reg im ci rcn inf call_name module_qn lvt ctx
  = Some (kind, qn) →
  ∃ class_qn method_name a,
    ctx = Some class_qn
    ∧ PyStr.after_first dot call_name = Some method_name
    ∧ ancestor ci class_qn a
    ∧ qn = a +:+ "." +:+ method_name
    ∧ FunctionRegistry.get reg qn = Some kind.
Proof.
  intros Hsuper. unfold _resolve_function_call. rewrite Hsuper.
  unfold _resolve_super_call.
  destruct (PyStr.after_first dot call_name) as [method_name|]; [| done].
  destruct ctx as [class_qn|]; [| done].
  destruct (negb (PyStr.truthy class_qn)); [done |].
  destruct (ci !! class_qn) as [[|p ps]|] eqn:Hc; [done | | done].
  rewrite resolve_inherited_first_hit.
  intros (a & Ha & Hq & Hget)%first_hit_some.
  exists class_qn, method_name, a. repeat split; try done.
  by apply bfs_order_ancestors.
Qed.

Lemma X15_witness :
  ∃ class_qn method_name a,
    Some "project.v.Car" = Some class_qn
    ∧ PyStr.after_first dot "super().start_engine" = Some method_name
    ∧ ancestor {[ "project.v.Car" := ["project.v.Vehicle"] ]} class_qn a
    ∧ "project.v.Vehicle.start_engine" = a +:+ "." +:+ method_name
    ∧ FunctionRegistry.get [("project.v.Vehicle.start_engine", "Method")]
        "project.v.Vehicle.start_engine" = Some "Method".
Proof.
  apply (X15_super_resolves_to_an_ancestor
           [("project.v.Vehicle.start_engine", "Method")] ∅
           {[ "project.v.Car" := ["project.v.Vehicle"] ]}
           Examples.no_class_resolution Examples.no_inference
           "super().start_engine" "project.v" None (Some "project.v.Car")
           "Method" "project.v.Vehicle.start_engine"); reflexivity.
Defined.

(** The parents enqueued keep the order of the declared list. *)
Lemma fresh_sublist gps visited : fresh gps visited `sublist_of` gps.
Proof.
  revert visited. induction gps as [|g gps IH]; intros visited; simpl.
  - constructor.
  - destruct (decide (g ∈ visited)).
    + apply sublist_cons, IH.
    + apply sublist_skip, IH.
Qed.

(** Each parent enqueued stands at its first occurrence in the declared
    list: the parents declared before it are visited already or enqueued
    before it, and none of those enqueued after it is declared before it. *)
Lemma fresh_first_occurrences gps visited pre g post :
  fresh gps visited = pre ++ g :: post →
  ∃ before after,
    gps = before ++ g :: after
    ∧ (g ∉ before)
    ∧ (∀ h, h ∈ before → h ∈ visited ∨ h ∈ pre)
    ∧ (∀ h, h ∈ post → h ∉ before).
Proof.
  revert visited pre. induction gps as [|x gps IH]; intros visited pre; simpl.
  - by intros ?%app_cons_not_nil.
  - destruct (decide (x ∈ visited)) as [Hx | Hx].
    + intros Hf.
      assert (g ∉ visited) as Hg.
      { apply (fresh_elem gps visited g). rewrite Hf. set_solver. }
      destruct (IH _ _ Hf) as (before & after & -> & Hnb & Hcov & Hpost).
      exists (x :: before), after. split; [done |]. split; [set_solver |].
      split.
      * intros h [-> | Hh]%elem_of_cons; [by left | by apply Hcov].
      * intros h Hh [-> | Hb]%elem_of_cons; [| by apply (Hpost h)].
        assert (x ∉ visited); [| done].
        apply (fresh_elem (before ++ g :: after) visited x).
        rewrite Hf. set_solver.
    + destruct pre as [|y pre]; simpl.
      * intros [= -> Hpost]. exists [], gps. split; [done |].
        split; [set_solver |]. split; intros h; set_solver.
      * intros [= <- Hf].
        destruct (IH _ _ Hf) as (before & after & -> & Hnb & Hcov & Hpost).
        assert (∀ h, h ∈ pre ++ g :: post → h ≠ x) as Hne.
        { intros h Hh. rewrite <- Hf in Hh.
          apply fresh_elem in Hh as [_ Hh]. set_solver. }
        exists (x :: before), after. split; [done |]. split.
        { intros [-> | Hb]%elem_of_cons; [| done].
          apply (Hne x); set_solver. }
        split.
        { intros h [-> | Hh]%elem_of_cons; [right; left |].
          destruct (Hcov h Hh) as [Hv | Hp]; [| right; by right].
          apply elem_of_union in Hv as [->%elem_of_singleton | Hv];
            [right; left | by left]. }
        intros h Hh [-> | Hb]%elem_of_cons; [| by apply (Hpost h)].
        apply (Hne x); set_solver.
Qed.

(** X16. The visited set of the inheritance walk: the inner loop appends to
    the queue exactly the parents that were not visited, each once and in
    declared order, leaves the queue before them as it was, and marks them
    visited; afterwards every parent of the list is visited.  The declared
    order is stated twice: the parents appended are a subsequence of the
    declared list, and each of them is appended at its first occurrence
    there, after every unvisited parent declared before it and before every
    parent appended later. *)
Theorem X16_enqueue_unvisited_keeps_visited
    (gps queue : list string) (visited : gset string) :
  let '(queue', visited') := enqueue_unvisited gps queue visited in
  ∃ new,
    queue' = queue ++ new
    ∧ NoDup new
    ∧ (∀ g, g ∈ new ↔ g ∈ gps ∧ g ∉ visited)
    ∧ (∀ g, g ∈ visited' ↔ g ∈ visited ∨ g ∈ gps)
    ∧ new `sublist_of` gps
    ∧ (∀ pre g post, new = pre ++ g :: post →
       ∃ before after,
         gps = before ++ g :: after
         ∧ (g ∉ before)
         ∧ (∀ h, h ∈ before → h ∈ visited ∨ h ∈ pre)
         ∧ (∀ h, h ∈ post → h ∉ before)).
Proof.
  rewrite enqueue_unvisited_fresh. exists (fresh gps visited).
  split; [done |]. split; [apply fresh_nodup |]. split; [| split; [| split]].
  - intros g. split; [apply fresh_elem |].
    intros [Hg Hv]. by destruct (fresh_covers gps visited g Hg).
  - intros g. rewrite elem_of_union, elem_of_list_to_set. split.
    + intros [[? _]%fresh_elem | ?]; [by right | by left].
    + intros [? | Hg]; [by right |].
      destruct (fresh_covers gps visited g Hg); [by right | by left].
  - apply fresh_sublist.
  - intros pre g post. apply fresh_first_occurrences.
Qed.



(** ** The walk finds a nearest ancestor *)

Section Nearest.

Context (reg : FunctionRegistry.t) (ci : gmap string (list string)).

Local Abbreviation U := (all_parents ci).

Lemma levels_reach class_qn n level visited d i L x :
  (∀ y, y ∈ level → reach ci class_qn d y) →
  bfs_levels ci n level visited !! i = Some L → x ∈ L →
  reach ci class_qn (d + i) x.
Proof.
  revert level visited d i.
  induction n as [|n IH]; intros level visited d i Hlevel; [done |].
  destruct (decide (level = [])) as [-> | Hne]; [done |].
  rewrite bfs_levels_cons by done.
  destruct i as [|i]; simpl.
  - intros [= <-] Hx. rewrite Nat.add_0_r. by apply Hlevel.
  - intros HL Hx. replace (d + S i) with (S d + i) by lia.
    eapply IH; [| exact HL | exact Hx].
    intros y (_ & p & gps & Hp & Hgps & Hy)%next_level_elem.
    eapply reach_step; [by apply Hlevel | done | done].
Qed.

(** The parents of a class of level [i] are visited before, or are in a
    level up to [i + 1]. *)
Lemma levels_parents n level visited i L x gps g :
  size (U ∖ visited) < n →
  bfs_levels ci n level visited !! i = Some L → x ∈ L →
  ci !! x = Some gps → g ∈ gps →
  g ∈ visited
  ∨ ∃ i' L', i' ≤ S i ∧ bfs_levels ci n level visited !! i' = Some L' ∧ g ∈ L'.
Proof.
  revert level visited i.
  induction n as [|n IH]; intros level visited i Hn; [lia |].
  destruct (decide (level = [])) as [-> | Hne]; [done |].
  rewrite bfs_levels_cons by done.
  pose proof (next_level_measure ci level visited) as Hmeasure.
  pose proof (next_level_visited ci level visited) as Hvisited.
  pose proof (next_level_covers ci level visited) as Hcovers.
  destruct (next_level ci level visited) as [next v'] eqn:Hnext. simpl in *.
  assert (Hnext_level : ∀ y, y ∈ next →
            bfs_levels ci n next v' !! 0 = Some next ∧ size (U ∖ v') < n).
  { intros y Hy.
    assert (0 < length next) by (destruct next; [by apply elem_of_nil in Hy | simpl; lia]).
    assert (next ≠ []) by (intros ->; by apply elem_of_nil in Hy).
    destruct n as [|n']; [lia |]. rewrite bfs_levels_cons by done.
    split; [done | lia]. }
  assert (Hin_v' : ∀ y, y ∈ v' → y ∈ visited
            ∨ ∃ i' L', i' ≤ 1
                ∧ (level :: bfs_levels ci n next v') !! i' = Some L' ∧ y ∈ L').
  { intros y [Hy | Hy]%Hvisited; [by left |]. right.
    exists 1, next. split; [lia |]. split; [| done].
    simpl. by apply (Hnext_level y). }
  destruct i as [|i]; simpl.
  - intros [= <-] Hx Hgps Hg.
    destruct (Hin_v' g) as [? | (i' & L' & Hi' & HL' & HgL')];
      [by eapply Hcovers | by left |].
    right. by exists i', L'.
  - intros HL Hx Hgps Hg.
    assert (Hn' : size (U ∖ v') < n).
    { destruct (bfs_levels ci n next v') as [|L0 Ls] eqn:Hlv; [done |].
      destruct next as [|y next']; [by rewrite bfs_levels_nil in Hlv |].
      apply (Hnext_level y). left. }
    destruct (IH next v' i Hn' HL Hx Hgps Hg)
      as [Hgv | (i' & L' & Hi' & HL' & HgL')].
    + destruct (Hin_v' g Hgv) as [? | (i' & L' & Hi' & HL' & HgL')];
        [by left |].
      right. exists i', L'. split; [lia | done].
    + right. exists (S i'), L'. split; [lia | done].
Qed.

(** The first hit of a traversal by levels lies in the first level that has
    a hit. *)
Lemma first_hit_level m (levels : list (list string)) kind qn :
  first_hit reg m (concat levels) = Some (kind, qn) →
  ∃ i L a,
    levels !! i = Some L ∧ a ∈ L ∧ qn = a +:+ "." +:+ m
    ∧ FunctionRegistry.get reg qn = Some kind
    ∧ ∀ i' L' b, i' < i → levels !! i' = Some L' → b ∈ L' → misses reg m b.
Proof.
  induction levels as [|L0 levels IH]; [done |].
  simpl. rewrite first_hit_app.
  destruct (first_hit reg m L0) as [hit|] eqn:H0.
  - intros [= ->]. apply first_hit_some in H0 as (a & Ha & Hq & Hget).
    exists 0, L0, a. repeat split; try done. intros i' L' b Hi'. lia.
  - intros (i & L & a & HL & Ha & Hq & Hget & Hbefore)%IH.
    exists (S i), L, a. repeat split; try done.
    intros [|i'] L' b Hi' HL' Hb; simpl in HL'.
    + injection HL' as <-.
      apply first_hit_none_iff in H0. rewrite Forall_forall in H0. by apply H0.
    + apply (Hbefore i' L' b); [lia | done | done].
Qed.

End Nearest.

(** X18. Breadth-first means nearest first: the method that
    [_resolve_inherited_method] returns belongs to an ancestor reached by
    some number [k] of parent steps, and no ancestor reached by fewer steps
    has the method registered. *)
Theorem X18_walk_finds_a_nearest_ancestor
    (reg : FunctionRegistry.t) (ci : gmap string (list string))
    (class_qn method_name kind qn : string) :
  _resolve_inherited_method reg ci class_qn method_name = Some (kind, qn) →
  ∃ a k,
    qn = a +:+ "." +:+ method_name
    ∧ FunctionRegistry.get reg qn = Some kind
    ∧ reach ci class_qn k a
    ∧ ∀ b j, reach ci class_qn j b →
             is_Some (FunctionRegistry.get reg (b +:+ "." +:+ method_name)) →
             k ≤ j.
Proof.
  rewrite resolve_inherited_first_hit. unfold bfs_order.
  remember (default [] (ci !! class_qn)) as parents eqn:Hpar.
  set (levels := bfs_levels ci (S (size (all_parents ci))) parents
                   (list_to_set parents)).
  intros (i & L & a & HL & Ha & Hq & Hget & Hbefore)%first_hit_level.
  assert (Hfirst : ∀ p, p ∈ parents → levels !! 0 = Some parents).
  { intros p Hp. unfold levels. rewrite bfs_levels_cons; [done |].
    intros E. rewrite E in Hp. by apply elem_of_nil in Hp. }
  assert (Hparents : ∀ ps p, ci !! class_qn = Some ps → p ∈ ps →
            levels !! 0 = Some parents ∧ p ∈ parents).
  { intros ps p Hc Hp. assert (p ∈ parents) by (by rewrite Hpar, Hc).
    split; [by apply (Hfirst p) | done]. }
  exists a, (1 + i). split; [done |]. split; [done |]. split.
  - apply (levels_reach ci class_qn (S (size (all_parents ci))) parents
             (list_to_set parents) 1 i L a);
      [| exact HL | exact Ha].
    intros y Hy. rewrite Hpar in Hy.
    destruct (ci !! class_qn) as [ps|] eqn:Hc; simpl in Hy;
      [| by apply elem_of_nil in Hy].
    by eapply reach_parent.
  - assert (Hlevel : ∀ b j, reach ci class_qn j b →
              ∃ i' L', i' < j ∧ levels !! i' = Some L' ∧ b ∈ L').
    { intros b j Hreach.
      induction Hreach as [ps p Hc Hp | k c gps g _ IH Hgps Hg].
      - destruct (Hparents ps p Hc Hp). exists 0, parents. split; [lia | done].
      - destruct IH as (i' & L' & Hi' & HL' & Hc').
        destruct (levels_parents ci (S (size (all_parents ci))) parents
                    (list_to_set parents) i' L' c gps g
                    (measure_top ci parents) HL' Hc' Hgps Hg)
          as [Hv | (i'' & L'' & Hi'' & HL'' & Hg'')].
        + apply elem_of_list_to_set in Hv. exists 0, parents.
          split; [lia |]. split; [by apply (Hfirst g) | done].
        + exists i'', L''. split; [lia | done]. }
    intros b j Hreach [kb Hkb].
    destruct (Hlevel b j Hreach) as (i' & L' & Hi' & HL' & Hb).
    destruct (decide (i' < i)) as [Hlt | Hge]; [| lia].
    specialize (Hbefore i' L' b Hlt HL' Hb). unfold misses in Hbefore. congruence.
Qed.

(** The method is on [D] (two steps up through [B]) and on [E] (three steps
    up through [C]): the walk returns the one of [D]. *)
Lemma X18_witness :
  let ci : gmap string (list string) :=
    {[ "A" := ["B"; "C"]; "B" := ["D"]; "C" := ["X"]; "X" := ["E"] ]} in
  let reg : FunctionRegistry.t := [("E.m", "Method"); ("D.m", "Method")] in
  ∃ a k,
    "D.m" = a +:+ "." +:+ "m"
    ∧ FunctionRegistry.get reg "D.m" = Some "Method"
    ∧ reach ci "A" k a
    ∧ ∀ b j, reach ci "A" j b →
             is_Some (FunctionRegistry.get reg (b +:+ "." +:+ "m")) → k ≤ j.
Proof.
  intros ci reg.
  apply (X18_walk_finds_a_nearest_ancestor reg ci "A" "m" "Method" "D.m").
  by vm_compute.
Defined.

(** ** What the nested descent asserts *)

Section Descent.

Lemma subtree_child n c x :
  c ∈ node_children n → x ∈ subtree c → x ∈ subtree n.
Proof.
  intros Hc Hx. rewrite subtree_unfold. right.
  apply list_elem_of_In, in_flat_map. exists c.
  split; by apply list_elem_of_In.
Qed.

End Descent.

(** X19. The nested descent asserts the relationships of the call nodes it
    walks over and nothing else: a relationship is asserted by
    [_find_and_process_nested_calls] on a node exactly when it is the
    relationship of some node of type "call" in the subtree of that node. *)
Theorem X19_descent_asserts_the_calls_below
    (reg : FunctionRegistry.t) (im : gmap string StrDict)
    (ci : gmap string (list string))
    (rcn : string → string → gmap string StrDict → FunctionRegistry.t → option string)
    (inf : string → string → option (gmap string string) → option string)
    (caller_qn caller_type module_qn : string)
    (lvt : option (gmap string string)) (ctx : option string)
    (node : Node) (r : Relationship) :
  r ∈ _find_and_process_nested_calls reg im ci rcn inf
        caller_qn caller_type module_qn lvt ctx node
  ↔ ∃ inner,
      inner ∈ subtree node ∧ node_type inner = "call"
      ∧ r ∈ emit_call reg im ci rcn inf caller_qn caller_type module_qn lvt ctx
              inner.
Proof.
  split.
  - revert node. apply (Node_children_ind (fun node =>
      r ∈ _find_and_process_nested_calls reg im ci rcn inf
            caller_qn caller_type module_qn lvt ctx node →
      ∃ inner, inner ∈ subtree node ∧ node_type inner = "call"
        ∧ r ∈ emit_call reg im ci rcn inf caller_qn caller_type module_qn
                lvt ctx inner)).
    intros ty txt fs IH. rewrite find_nested_unfold.
    rewrite Forall_forall in IH.
    assert (Hchild : ∀ c, c ∈ node_children (mkNode ty txt fs) →
              r ∈ _find_and_process_nested_calls reg im ci rcn inf
                    caller_qn caller_type module_qn lvt ctx c →
              ∃ inner, inner ∈ subtree (mkNode ty txt fs)
                ∧ node_type inner = "call"
                ∧ r ∈ emit_call reg im ci rcn inf caller_qn caller_type
                        module_qn lvt ctx inner).
    { intros c Hc Hr. pose proof Hc as Hc'.
      unfold node_children in Hc'. simpl in Hc'.
      apply list_elem_of_In, in_map_iff in Hc' as ([f c'] & Heq & Hfc).
      simpl in Heq. subst c'.
      destruct (IH (f, c) ltac:(by apply list_elem_of_In) Hr)
        as (inner & Hin & Hty & He).
      exists inner. split; [by eapply subtree_child | done]. }
    intros [Hown | Hkids]%elem_of_app.
    + case_bool_decide as Hcall; [| by apply elem_of_nil in Hown].
      apply elem_of_app in Hown as [Hn | He].
      * unfold _process_nested_calls_in_node in Hn.
        destruct (child_by_field_name _ "function") as [c|] eqn:Ec;
          [| by apply elem_of_nil in Hn].
        case_bool_decide; [| by apply elem_of_nil in Hn].
        apply (Hchild c); [by eapply child_by_field_name_child | done].
      * exists (mkNode ty txt fs). split; [apply subtree_self | done].
    + apply list_elem_of_In, in_flat_map in Hkids as (c & Hc & Hr).
      apply (Hchild c); by apply list_elem_of_In.
  - intros (inner & Hin & Hty & He).
    destruct (find_nested_reaches reg im ci rcn inf caller_qn caller_type
                module_qn lvt ctx node inner Hin Hty) as (a & b & ->).
    apply elem_of_app. right. apply elem_of_app. by left.
Qed.

(** ** Inherited methods on a typed local variable *)

(** X20. The class-name form with an inherited method: in a module with an
    import map, a call [name.rest] as in C4, with [name] bound in
    [local_var_types] to a type resolving to a non-empty [class_qn] that has
    no [rest] of its own registered, resolves to what the inheritance walk
    from [class_qn] finds, ahead of wildcard imports, the same-module probe
    and the suffix fallback. *)
Theorem X20_local_variable_call_inherited
    (reg : FunctionRegistry.t) (im : gmap string StrDict)
    (ci : gmap string (list string))
    (rcn : string → string → gmap string StrDict → FunctionRegistry.t → option string)
    (inf : string → string → option (gmap string string) → option string)
    (module_qn : string) (import_map : StrDict)
    (lvt : option (gmap string string)) (ctx : option string)
    (name rest var_type : string) (hit : Callee) :
  let call_name := name +:+ "." +:+ rest in
  let class_qn :=
    match dict_get import_map var_type with
    | Some qn => qn
    | None => default "" (rcn var_type module_qn im reg)
    end in
  im !! module_qn = Some import_map →
  PyStr.startswith call_name "super()" = false →
  _is_method_chain call_name = false →
  PyStr.contains "." name = false →
  (name ≠ "self" ∨ PyStr.contains "." rest = false) →
  direct_import reg import_map call_name = None →
  dict_get import_map name = None →
  lvt_get lvt name = Some var_type →
  class_qn ≠ "" →
  FunctionRegistry.get reg (class_qn +:+ "." +:+ rest) = None →
  _resolve_inherited_method reg ci class_qn rest = Some hit →
  _resolve_function_call reg im ci rcn inf call_name module_qn lvt ctx = Some hit.
Proof.
  intros call_name class_qn Him Hsup Hch Hname Hself Hdir Himp Hlvt Hne Hreg Hinh.
  unfold _resolve_function_call. rewrite Hsup, Hch, andb_false_r.
  unfold import_phase. rewrite Him, Hdir.
  unfold qualified_call. subst call_name.
  rewrite contains_name_rest, !split_name_rest by done.
  assert (Hform : Nat.leb 3 (length (name :: PyStr.split dot rest))
                  && bool_decide (head (name :: PyStr.split dot rest) = Some "self")
                  = false).
  { destruct Hself as [Hn | Hr].
    - rewrite bool_decide_eq_false_2; [apply andb_false_r |].
      simpl. congruence.
    - by rewrite (split_no_sep dot rest Hr). }
  rewrite Hform. simpl hd. simpl tail.
  rewrite Himp, Hlvt. unfold resolve_on_type, _resolve_class_name.
  fold class_qn. rewrite (truthy_ne _ Hne), join_split.
  unfold registry_hit. by rewrite Hreg, Hinh.
Qed.

(** [car.start_engine()] with [car = Car()], [Car(Vehicle)], the method on
    [Vehicle] only. *)
Lemma X20_witness :
  _resolve_function_call
    [("project.v.Vehicle.start_engine", "Method")]
    {[ "project.u" := [("Car", "project.v.Car")] ]}
    {[ "project.v.Car" := ["project.v.Vehicle"] ]}
    Examples.no_class_resolution Examples.no_inference
    ("car" +:+ "." +:+ "start_engine") "project.u"
    (Some {[ "car" := "Car" ]}) None
  = Some ("Method", "project.v.Vehicle.start_engine").
Proof.
  apply (X20_local_variable_call_inherited
           [("project.v.Vehicle.start_engine", "Method")]
           {[ "project.u" := [("Car", "project.v.Car")] ]}
           {[ "project.v.Car" := ["project.v.Vehicle"] ]}
           Examples.no_class_resolution Examples.no_inference
           "project.u" [("Car", "project.v.Car")]
           (Some {[ "car" := "Car" ]}) None "car" "start_engine" "Car");
    try reflexivity.
  - left. discriminate.
  - discriminate.
Defined.
